(** * SimpleVector and ArrayPtr: a shallow embedding

    The development follows [simple-vector/array_ptr.h] and
    [simple-vector/simple_vector.h].

    - [size_t] is a 64-bit unsigned integer, kept as an [N] with the
      wrap-around of every arithmetic operation written out.
    - The block an [ArrayPtr] points to is a [list] of elements; the pointer
      itself is [None] for [nullptr].  Iterators are offsets from the start of
      the block.
    - Member functions are computations in a state-and-error monad over the
      object they are called on.  A computation ends normally, throws a C++
      exception (the object keeps the state it had at the throw), or faults:
      a failed [assert], an access outside the allocated block, or a read
      through a reference into a block that was deleted.
    - An argument that [PushBack] or [Insert] takes by reference is an object
      outside the vector or a slot of the vector's own block; it is read
      where the code reads it. *)

From stdpp Require Import base option list numbers.
From Stdlib Require Import NArith Lia.

Local Open Scope N_scope.

(** ** [size_t] arithmetic *)

Definition SIZE_MAX : N := 2 ^ 64 - 1.
Definition size_t_wrap (x : N) : N := x mod 2 ^ 64.
Definition size_t_mul (a b : N) : N := size_t_wrap (a * b).
(** [++x] and [--x] on a [size_t]. *)
Definition size_t_inc (a : N) : N := size_t_wrap (a + 1).
Definition size_t_dec (a : N) : N := size_t_wrap (a + SIZE_MAX).
(** The largest number of elements of one array object: [PTRDIFF_MAX]. *)
Definition PTRDIFF_MAX : N := 2 ^ 63 - 1.

(** ** Outcomes of a call *)

Inductive exception := bad_alloc | out_of_range | logic_error.

Inductive outcome (A : Type) :=
  | Ok (a : A)
  | Throw (e : exception)
  | Fault.
Arguments Ok {A} a.
Arguments Throw {A} e.
Arguments Fault {A}.

(** A member function: from the object's state to an outcome and the state
    the object is left in. *)
Definition M (S A : Type) : Type := S -> outcome A * S.

#[global] Instance outcome_ret : MRet outcome := @Ok.
#[global] Instance outcome_bind : MBind outcome := fun A B f m =>
  match m with
  | Ok a => f a
  | Throw e => Throw e
  | Fault => Fault
  end.
#[global] Instance M_ret S : MRet (M S) := fun A a s => (Ok a, s).
#[global] Instance M_bind S : MBind (M S) := fun A B f m s =>
  match m s with
  | (Ok a, s') => f a s'
  | (Throw e, s') => (Throw e, s')
  | (Fault, s') => (Fault, s')
  end.

Definition get {S} : M S S := fun s => (Ok s, s).
Definition put {S} (s : S) : M S unit := fun _ => (Ok tt, s).
Definition throw {S A} (e : exception) : M S A := fun s => (Throw e, s).
(** A constructor call or another computation that does not touch [*this]. *)
Definition lift {S A} (o : outcome A) : M S A := fun s => (o, s).
(** An access to a block: outside the block the behaviour is undefined. *)
Definition access {A} (o : option A) : outcome A :=
  match o with
  | Some a => Ok a
  | None => Fault
  end.
(** [assert(b)]. *)
Definition assert (b : bool) : outcome unit := if b then Ok tt else Fault.

(** [std::strong_ordering]. *)
Inductive strong_ordering := less | equal | greater.

(** ** What the template asks of the element type [Type]

    [Type{}], move assignment (with the state the moved-from element is left
    in) and [operator<=>] with result [std::strong_ordering]. *)
Class Element (T : Type) := {
  default_value : T;
  moved_from : T -> T;
  compare_three_way : T -> T -> strong_ordering;
}.

(** ** The free store behind [new T[n]]

    [can_allocate n] tells whether [new T[n]] finds room; where it does not,
    [new] throws.  No array has more than [PTRDIFF_MAX] elements.  Slot [i] of
    a new block of [n] elements holds [indeterminate n i]. *)
Class FreeStore (T : Type) := {
  can_allocate : N -> bool;
  can_allocate_bound : forall n, can_allocate n = true -> n <= PTRDIFF_MAX;
  indeterminate : N -> nat -> T;
}.

(** ** The standard algorithms the vector calls

    Each works on a block through offsets and returns [None] when it reads or
    writes outside the block.  A range [first, last) has [first <= last]; the
    loops run [last - first] times. *)
Section Algorithms.
Context `{Element T}.

(** [blk[i] = x]. *)
Definition store (blk : list T) (i : nat) (x : T) : option (list T) :=
  if decide (i < length blk)%nat then Some (<[i := x]> blk) else None.

(** [for (; first != last; ++first) *first = g;] *)
Fixpoint fill_loop (n first : nat) (g : T) (blk : list T) : option (list T) :=
  match n with
  | O => Some blk
  | S n' => blk' ← store blk first g; fill_loop n' (S first) g blk'
  end.
Definition std_fill (first last : nat) (value : T) (blk : list T) :=
  fill_loop (last - first) first value blk.
(** [std::generate] is only called with a generator that returns [Type{}]. *)
Definition std_generate (first last : nat) (g : T) (blk : list T) :=
  fill_loop (last - first) first g blk.

(** [std::copy(first, last, d_first)] from one block into another. *)
Fixpoint copy_loop (n first : nat) (src : list T) (d_first : nat) (dst : list T)
  : option (list T) :=
  match n with
  | O => Some dst
  | S n' =>
      x ← src !! first;
      dst' ← store dst d_first x;
      copy_loop n' (S first) src (S d_first) dst'
  end.
Definition std_copy (first last : nat) (src : list T) (d_first : nat) (dst : list T) :=
  copy_loop (last - first) first src d_first dst.

(** [std::move(first, last, d_first)] from one block into another: the
    result is the source block and the destination block. *)
Fixpoint move_to_loop (n first : nat) (src : list T) (d_first : nat) (dst : list T)
  : option (list T * list T) :=
  match n with
  | O => Some (src, dst)
  | S n' =>
      x ← src !! first;
      dst' ← store dst d_first x;
      move_to_loop n' (S first) (<[first := moved_from x]> src) (S d_first) dst'
  end.
Definition std_move_to (first last : nat) (src : list T) (d_first : nat) (dst : list T) :=
  move_to_loop (last - first) first src d_first dst.

(** [std::move(first, last, d_first)] inside one block, front to back. *)
Fixpoint move_loop (n first d_first : nat) (blk : list T) : option (list T) :=
  match n with
  | O => Some blk
  | S n' =>
      x ← blk !! first;
      blk' ← store blk d_first x;
      move_loop n' (S first) (S d_first) (<[first := moved_from x]> blk')
  end.
Definition std_move (first last d_first : nat) (blk : list T) :=
  move_loop (last - first) first d_first blk.

(** [std::copy_backward(first, last, d_last)] inside one block:
    [while (first != last) *(--d_last) = *(--last);] *)
Fixpoint copy_backward_loop (n last d_last : nat) (blk : list T) : option (list T) :=
  match n with
  | O => Some blk
  | S n' =>
      x ← blk !! (last - 1)%nat;
      blk' ← store blk (d_last - 1) x;
      copy_backward_loop n' (last - 1) (d_last - 1) blk'
  end.
Definition std_copy_backward (first last d_last : nat) (blk : list T) :=
  copy_backward_loop (last - first) last d_last blk.

(** The same through [std::make_move_iterator]: every read moves. *)
Fixpoint move_backward_loop (n last d_last : nat) (blk : list T) : option (list T) :=
  match n with
  | O => Some blk
  | S n' =>
      x ← blk !! (last - 1)%nat;
      blk' ← store blk (d_last - 1) x;
      move_backward_loop n' (last - 1) (d_last - 1) (<[(last - 1)%nat := moved_from x]> blk')
  end.
Definition std_copy_backward_move (first last d_last : nat) (blk : list T) :=
  move_backward_loop (last - first) last d_last blk.

(** [std::lexicographical_compare_three_way(f1, l1, f2, l2)]: [n1] and [n2]
    are the distances [l1 - f1] and [l2 - f2]. *)
Fixpoint compare_loop (n1 n2 f1 f2 : nat) (blk1 blk2 : list T) : option strong_ordering :=
  match n1, n2 with
  | S n1', S n2' =>
      x ← blk1 !! f1;
      y ← blk2 !! f2;
      match compare_three_way x y with
      | equal => compare_loop n1' n2' (S f1) (S f2) blk1 blk2
      | c => Some c
      end
  | S _, O => Some greater
  | O, S _ => Some less
  | O, O => Some equal
  end.
Definition std_lexicographical_compare_three_way
  (f1 l1 : nat) (blk1 : list T) (f2 l2 : nat) (blk2 : list T) :=
  compare_loop (l1 - f1) (l2 - f2) f1 f2 blk1 blk2.
End Algorithms.

(** ** [ArrayPtr] *)
Section ArrayPtr.
Context `{Element T, FreeStore T}.

(** [ptr_]: [None] is [nullptr], [Some blk] points to the block [blk]. *)
Definition ArrayPtr : Type := option (list T).

Definition nullptr : ArrayPtr := None.

(** The slots [ptr_] gives access to. *)
Definition block (p : ArrayPtr) : list T :=
  match p with
  | Some blk => blk
  | None => []
  end.

(** In place of the pointed-to block after an algorithm wrote to it. *)
Definition set_block (p : ArrayPtr) (blk : list T) : ArrayPtr :=
  match p with
  | Some _ => Some blk
  | None => None
  end.

(** [new T[n]]. *)
Definition new_array (n : N) : outcome (list T) :=
  if can_allocate n then Ok (map (indeterminate n) (seq 0 (N.to_nat n)))
  else Throw bad_alloc.

(** [ArrayPtr() = default]. *)
Definition ArrayPtr_default : ArrayPtr := nullptr.

(** [explicit ArrayPtr(size_t size)]. *)
Definition ArrayPtr_sized (size : N) : outcome ArrayPtr :=
  if 0 <? size then blk ← new_array size; Ok (Some blk) else Ok nullptr.

(** [ArrayPtr(ArrayPtr&& other)]: the new object and what is left of [other]. *)
Definition ArrayPtr_move (other : ArrayPtr) : ArrayPtr * ArrayPtr :=
  (other, nullptr).

(** [operator=(ArrayPtr&& other)] on the pointers at the addresses [this]
    and [other]: nothing happens when they are one object; otherwise the
    block of [this] is deleted, [this] takes the block of [other] and [other]
    is left null. *)
Definition ArrayPtr_move_assign (this other : nat) (st : nat -> ArrayPtr)
  : nat -> ArrayPtr :=
  if bool_decide (this ≠ other) then
    let taken := st other in
    fun a => if decide (a = this) then taken
             else if decide (a = other) then nullptr
             else st a
  else st.

(** [explicit operator bool()]. *)
Definition ArrayPtr_bool (p : ArrayPtr) : bool :=
  match p with
  | Some _ => true
  | None => false
  end.

(** [operator*]. *)
Definition ArrayPtr_deref (p : ArrayPtr) : outcome T :=
  match p with
  | None => Throw logic_error
  | Some blk => access (blk !! 0%nat)
  end.

(** [operator[]]: no check. *)
Definition ArrayPtr_index (p : ArrayPtr) (index : N) : option T :=
  block p !! N.to_nat index.

(** [Release()]: the raw pointer and the object afterwards. *)
Definition Release (p : ArrayPtr) : option (list T) * ArrayPtr := (p, nullptr).

(** [swap(ArrayPtr& other)]. *)
Definition ArrayPtr_swap (this other : ArrayPtr) : ArrayPtr * ArrayPtr :=
  (other, this).
End ArrayPtr.
Arguments ArrayPtr T : clear implicits.

(** ** [SimpleVector] *)
Section SimpleVector.
Context `{Element T, FreeStore T}.

Record SimpleVector : Type := mkSimpleVector {
  items_ : ArrayPtr T;
  size_ : N;
  capacity_ : N;
}.

Definition set_items (v : SimpleVector) (p : ArrayPtr T) : SimpleVector :=
  {| items_ := p; size_ := size_ v; capacity_ := capacity_ v |}.
Definition set_size (v : SimpleVector) (n : N) : SimpleVector :=
  {| items_ := items_ v; size_ := n; capacity_ := capacity_ v |}.
Definition set_capacity (v : SimpleVector) (n : N) : SimpleVector :=
  {| items_ := items_ v; size_ := size_ v; capacity_ := n |}.

(** Iterators are offsets from [items_.GetRawPtr()]. *)
Definition begin (v : SimpleVector) : nat := 0.
Definition end' (v : SimpleVector) : nat := (begin v + N.to_nat (size_ v))%nat.
Definition cbegin (v : SimpleVector) : nat := 0.
Definition cend (v : SimpleVector) : nat := (cbegin v + N.to_nat (size_ v))%nat.

Definition GetSize (v : SimpleVector) : N := size_ v.
Definition GetCapacity (v : SimpleVector) : N := capacity_ v.
Definition IsEmpty (v : SimpleVector) : bool := size_ v =? 0.
Definition IsFull (v : SimpleVector) : bool := size_ v =? capacity_ v.

(** Run a standard algorithm on the block of [*this]. *)
Definition on_block (f : list T -> option (list T)) : M SimpleVector unit :=
  this ← get;
  blk ← lift (access (f (block (items_ this))));
  put (set_items this (set_block (items_ this) blk)).

(** Member initialisers [init], then the constructor body. *)
Definition construct (init : SimpleVector) (body : M SimpleVector unit)
  : outcome SimpleVector :=
  match body init with
  | (Ok _, this) => Ok this
  | (Throw e, _) => Throw e
  | (Fault, _) => Fault
  end.

(** [SimpleVector() noexcept = default]. *)
Definition SimpleVector_default : SimpleVector :=
  {| items_ := ArrayPtr_default; size_ := 0; capacity_ := 0 |}.

(** [explicit SimpleVector(size_t size)]. *)
Definition SimpleVector_sized (size : N) : outcome SimpleVector :=
  items ← ArrayPtr_sized size;
  construct {| items_ := items; size_ := size; capacity_ := size |}
    (this ← get; on_block (std_generate (begin this) (end' this) default_value)).

(** [SimpleVector(size_t size, const Type& value)]. *)
Definition SimpleVector_filled (size : N) (value : T) : outcome SimpleVector :=
  items ← ArrayPtr_sized size;
  construct {| items_ := items; size_ := size; capacity_ := size |}
    (this ← get; on_block (std_fill (begin this) (end' this) value)).

(** [SimpleVector(std::initializer_list<Type> init)]; [init.size()] is the
    length of the list. *)
Definition SimpleVector_init (init : list T) : outcome SimpleVector :=
  let init_size := N.of_nat (length init) in
  items ← ArrayPtr_sized init_size;
  construct {| items_ := items; size_ := init_size; capacity_ := init_size |}
    (this ← get; on_block (std_copy 0 (length init) init (begin this))).

(** [SimpleVector(ReserveProxyObj reserved)]. *)
Definition SimpleVector_reserved (capacity_to_reserve : N) : outcome SimpleVector :=
  items ← ArrayPtr_sized capacity_to_reserve;
  Ok {| items_ := items; size_ := 0; capacity_ := capacity_to_reserve |}.

(** [SimpleVector(const SimpleVector& other)]. *)
Definition SimpleVector_copy (other : SimpleVector) : outcome SimpleVector :=
  items ← ArrayPtr_sized (size_ other);
  construct {| items_ := items; size_ := size_ other; capacity_ := size_ other |}
    (this ← get;
     on_block (std_copy (begin other) (end' other) (block (items_ other)) (begin this))).

(** [SimpleVector(SimpleVector&& other)]: the new object and what is left
    of [other]. *)
Definition SimpleVector_move (other : SimpleVector) : SimpleVector * SimpleVector :=
  let '(items, other_items) := ArrayPtr_move (items_ other) in
  ({| items_ := items; size_ := size_ other; capacity_ := capacity_ other |},
   {| items_ := other_items; size_ := 0; capacity_ := 0 |}).

(** [swap(SimpleVector& other)]: [*this] and [other] afterwards. *)
Definition swap (this other : SimpleVector) : SimpleVector * SimpleVector :=
  let '(items, other_items) := ArrayPtr_swap (items_ this) (items_ other) in
  ({| items_ := items; size_ := size_ other; capacity_ := capacity_ other |},
   {| items_ := other_items; size_ := size_ this; capacity_ := capacity_ this |}).

(** [NewCapacity(const size_t new_size = 1)]. *)
Definition NewCapacity (this : SimpleVector) (new_size : N) : N :=
  N.max (size_t_mul (capacity_ this) 2) new_size.

(** [IncCapacity()]. The local [buffer] is destroyed on return. *)
Definition IncCapacity : M SimpleVector unit :=
  this ← get;
  buffer ← lift (SimpleVector_sized (NewCapacity this 1));
  let buffer := set_size buffer (size_ this) in
  moved ← lift (access (std_move_to (begin this) (end' this) (block (items_ this))
                          (begin buffer) (block (items_ buffer))));
  let this := set_items this (set_block (items_ this) moved.1) in
  let buffer := set_items buffer (set_block (items_ buffer) moved.2) in
  put (swap this buffer).1.

(** An argument passed by reference: an object outside the vector, or the
    element in slot [i] of the block the vector has when the call is made. *)
Inductive argument : Type :=
  | Outside (x : T)
  | Inside (i : nat).

(** Read through the reference.  A reference into the block dangles once the
    call has reallocated: the old block was deleted with [buffer]. *)
Definition read_argument (reallocated : bool) (a : argument) : M SimpleVector T :=
  match a with
  | Outside x => mret x
  | Inside i =>
      if reallocated then lift Fault
      else this ← get; lift (access (block (items_ this) !! i))
  end.

(** What [std::move] leaves in the object the reference is to, after [x] was
    taken from it; an object outside the vector is not part of its state.  A
    slot moved onto itself is taken to be left like any other moved-from
    slot. *)
Definition leave_moved_from (a : argument) (x : T) : M SimpleVector unit :=
  match a with
  | Outside _ => mret tt
  | Inside i => on_block (fun blk => store blk i (moved_from x))
  end.

(** [PushBack(const Type& item)]. *)
Definition PushBack (item : argument) : M SimpleVector unit :=
  this ← get;
  let reallocated := IsFull this in
  (if IsFull this then IncCapacity else mret tt);;
  x ← read_argument reallocated item;
  this ← get;
  blk ← lift (access (store (block (items_ this)) (N.to_nat (size_ this)) x));
  put (set_size (set_items this (set_block (items_ this) blk)) (size_t_inc (size_ this))).

(** [PushBack(Type&& item)]. *)
Definition PushBack_rvalue (item : argument) : M SimpleVector unit :=
  this ← get;
  let reallocated := IsFull this in
  (if IsFull this then IncCapacity else mret tt);;
  x ← read_argument reallocated item;
  this ← get;
  blk ← lift (access (store (block (items_ this)) (N.to_nat (size_ this)) x));
  put (set_size (set_items this (set_block (items_ this) blk)) (size_t_inc (size_ this)));;
  leave_moved_from item x.

(** [Insert(ConstIterator pos, const Type& value)]. *)
Definition Insert (pos : nat) (value : argument) : M SimpleVector nat :=
  this ← get;
  lift (assert (bool_decide (begin this ≤ pos ∧ pos ≤ end' this)%nat));;
  let offset := (pos - cbegin this)%nat in
  let reallocated := IsFull this in
  (if IsFull this then IncCapacity else mret tt);;
  this ← get;
  put (set_size this (size_t_inc (size_ this)));;
  this ← get;
  let it := (begin this + offset)%nat in
  on_block (std_copy_backward it (end' this - 1) (end' this));;
  x ← read_argument reallocated value;
  on_block (fun blk => store blk it x);;
  mret it.

(** [Insert(ConstIterator pos, Type&& value)]. *)
Definition Insert_rvalue (pos : nat) (value : argument) : M SimpleVector nat :=
  this ← get;
  lift (assert (bool_decide (begin this ≤ pos ∧ pos ≤ end' this)%nat));;
  let offset := (pos - cbegin this)%nat in
  let reallocated := IsFull this in
  (if IsFull this then IncCapacity else mret tt);;
  this ← get;
  put (set_size this (size_t_inc (size_ this)));;
  this ← get;
  let it := (begin this + offset)%nat in
  on_block (std_copy_backward_move it (end' this - 1) (end' this));;
  x ← read_argument reallocated value;
  on_block (fun blk => store blk it x);;
  leave_moved_from value x;;
  mret it.

(** [PopBack() noexcept]. *)
Definition PopBack : M SimpleVector unit :=
  this ← get;
  if negb (IsEmpty this) then put (set_size this (size_t_dec (size_ this)))
  else mret tt.

(** [Erase(ConstIterator pos)]. *)
Definition Erase (pos : nat) : M SimpleVector nat :=
  this ← get;
  lift (assert (bool_decide (begin this ≤ pos ∧ pos < end' this)%nat));;
  let erase_pos := pos in
  on_block (std_move (erase_pos + 1) (end' this) erase_pos);;
  this ← get;
  put (set_size this (size_t_dec (size_ this)));;
  mret erase_pos.

(** [operator[](size_t index) noexcept]. *)
Definition subscript (index : N) : M SimpleVector T :=
  this ← get;
  lift (assert (index <? size_ this));;
  lift (access (ArrayPtr_index (items_ this) index)).

(** [At(size_t index)]. *)
Definition At (index : N) : M SimpleVector T :=
  this ← get;
  if size_ this <=? index then throw out_of_range
  else lift (access (ArrayPtr_index (items_ this) index)).

(** [Clear() noexcept]. *)
Definition Clear : M SimpleVector unit :=
  this ← get;
  put (set_size this 0).

(** [Resize(size_t new_size)]. *)
Definition Resize (new_size : N) : M SimpleVector unit :=
  this ← get;
  (if capacity_ this <? new_size then
     let new_capacity := NewCapacity this new_size in
     buffer ← lift (SimpleVector_sized new_capacity);
     moved ← lift (access (std_move_to (begin this) (end' this) (block (items_ this))
                             (begin buffer) (block (items_ buffer))));
     let this := set_items this (set_block (items_ this) moved.1) in
     let buffer := set_items buffer (set_block (items_ buffer) moved.2) in
     put (swap this buffer).1
   else if size_ this <? new_size then
     lift (assert (new_size <=? capacity_ this));;
     on_block (std_generate (end' this) (begin this + N.to_nat new_size) default_value)
   else mret tt);;
  this ← get;
  put (set_size this new_size).

(** [Reserve(size_t new_capacity)]. *)
Definition Reserve (new_capacity : N) : M SimpleVector unit :=
  this ← get;
  if capacity_ this <? new_capacity then
    let size_save := size_ this in
    Resize new_capacity;;
    this ← get;
    put (set_capacity (set_size this size_save) new_capacity)
  else mret tt.

(** *** The comparison operators *)

#[local] Instance strong_ordering_eq_dec : EqDecision strong_ordering.
Proof. solve_decision. Defined.

(** [operator<=>]. *)
Definition spaceship (lhs rhs : SimpleVector) : outcome strong_ordering :=
  access (std_lexicographical_compare_three_way
            (cbegin lhs) (cend lhs) (block (items_ lhs))
            (cbegin rhs) (cend rhs) (block (items_ rhs))).

Definition op_eq (lhs rhs : SimpleVector) : outcome bool :=
  c ← spaceship lhs rhs; mret (bool_decide (c = equal)).
Definition op_ne (lhs rhs : SimpleVector) : outcome bool :=
  c ← spaceship lhs rhs; mret (bool_decide (c ≠ equal)).
Definition op_lt (lhs rhs : SimpleVector) : outcome bool :=
  c ← spaceship lhs rhs; mret (bool_decide (c = less)).
Definition op_le (lhs rhs : SimpleVector) : outcome bool :=
  c ← spaceship lhs rhs; mret (bool_decide (c ≠ greater)).
Definition op_gt (lhs rhs : SimpleVector) : outcome bool :=
  c ← spaceship lhs rhs; mret (bool_decide (c = greater)).
Definition op_ge (lhs rhs : SimpleVector) : outcome bool :=
  c ← spaceship lhs rhs; mret (bool_decide (c ≠ less)).

(** *** Two objects at once

    Assignment and [swap] take a reference to a second vector, which may be
    the object itself: objects live in a store, at addresses. *)
Definition Store : Type := nat -> SimpleVector.

Definition update (a : nat) (v : SimpleVector) (st : Store) : Store :=
  fun b => if decide (b = a) then v else st b.

(** A member function called on the object at [this]. *)
Definition call {A} (this : nat) (m : M SimpleVector A) : M Store A :=
  fun st => let '(o, v) := m (st this) in (o, update this v st).

(** [this->swap(other)] through references. *)
Definition swap_at (this other : nat) : M Store unit :=
  st ← get;
  let r := swap (st this) (st other) in
  put (update other r.2 (update this r.1 st)).

(** [operator=(const SimpleVector& other)]. *)
Definition copy_assign (this other : nat) : M Store unit :=
  if bool_decide (other ≠ this) then
    st ← get;
    if IsEmpty (st other) then
      call this
        (Clear;;
         v ← get; put (set_capacity v 0);;
         v ← get;
         (* [items_] at address 0, the temporary [ArrayPtr<Type>()] at 1 *)
         let pointers := fun a : nat =>
           if decide (a = 0%nat) then items_ v else ArrayPtr_default in
         put (set_items v (ArrayPtr_move_assign 0 1 pointers 0%nat)))
    else
      other_copy ← lift (SimpleVector_copy (st other));
      put (update this (swap (st this) other_copy).1 st)
  else mret tt.

(** [operator=(SimpleVector&& other)]. *)
Definition move_assign (this other : nat) : M Store unit :=
  if bool_decide (this ≠ other) then swap_at this other else mret tt.

(** *** What a vector holds, and when it is well formed *)

(** The live elements: slots [0 .. size_). *)
Definition elements (v : SimpleVector) : list T :=
  take (N.to_nat (size_ v)) (block (items_ v)).

(** The number of slots of the block [items_] points to. *)
Definition allocated (v : SimpleVector) : N :=
  N.of_nat (length (block (items_ v))).

(** The invariant of the data model ([0 <= size <= capacity], every slot
    below [size] holds an element), with what the representation adds: the
    block has at least [capacity] slots, and no more than an array can have. *)
Record Inv (v : SimpleVector) : Prop := {
  inv_size : size_ v <= capacity_ v;
  inv_live : forall i, i < size_ v -> is_Some (ArrayPtr_index (items_ v) i);
  inv_capacity : capacity_ v <= allocated v;
  inv_allocated : allocated v <= PTRDIFF_MAX;
}.

(** The slots of the block after the live elements moved into a fresh block
    of [c] default-valued slots. *)
Definition migrated (v : SimpleVector) (c : N) (blk : list T) : Prop :=
  length blk = N.to_nat c /\
  forall i : nat, blk !! i =
    if decide (i < N.to_nat (size_ v))%nat then block (items_ v) !! i
    else if decide (i < N.to_nat c)%nat then Some default_value
    else None.

(** The comparison of the standard, on two sequences of elements. *)
Fixpoint lexicographic (l1 l2 : list T) : strong_ordering :=
  match l1, l2 with
  | x :: l1', y :: l2' =>
      match compare_three_way x y with
      | equal => lexicographic l1' l2'
      | c => c
      end
  | _ :: _, [] => greater
  | [], _ :: _ => less
  | [], [] => equal
  end.
End SimpleVector.
Arguments SimpleVector T : clear implicits.
Arguments Store T : clear implicits.
Arguments argument T : clear implicits.
Arguments Outside {T} x.
Arguments Inside {T} i.

(** ** An element type and a free store to run the code on *)

#[local] Instance N_element : Element N := {
  default_value := 0;
  moved_from := fun x => x;
  compare_three_way := fun x y =>
    match x ?= y with
    | Lt => less
    | Eq => equal
    | Gt => greater
    end;
}.

#[local] Instance small_store : FreeStore N := {
  can_allocate := fun n => n <=? 1000;
  can_allocate_bound :=
    ltac:(intros n Hn%N.leb_le; unfold PTRDIFF_MAX; lia);
  indeterminate := fun n i => 77 + N.of_nat i;
}.

(** Vectors to run the code on: [[1; 2; 3]] with room for a fourth element,
    [[1; 2; 3]] without, [[1; 2]], and the store that holds the last two at
    addresses 0 and 1. *)
Definition roomy_123 : SimpleVector N :=
  {| items_ := Some [1; 2; 3; 0]; size_ := 3; capacity_ := 4 |}.
Definition full_123 : SimpleVector N :=
  {| items_ := Some [1; 2; 3]; size_ := 3; capacity_ := 3 |}.
Definition full_12 : SimpleVector N :=
  {| items_ := Some [1; 2]; size_ := 2; capacity_ := 2 |}.
Definition two_vectors : Store N :=
  fun a => match a with
           | O => full_12
           | 1%nat => full_123
           | _ => SimpleVector_default
           end.

(** ** The rest of the two headers *)

(** [struct ReserveProxyObj]. *)
Record ReserveProxyObj : Type := mkReserveProxyObj { capacity : N }.

(** The free function [Reserve(size_t capacity_to_reserve)]; the name
    [Reserve] is the member function's here. *)
Definition Reserve_proxy (capacity_to_reserve : N) : ReserveProxyObj :=
  mkReserveProxyObj capacity_to_reserve.

Section Remaining.
Context `{Element T, FreeStore T}.

(** [explicit ArrayPtr(T* raw_ptr) noexcept]. *)
Definition ArrayPtr_from_raw (raw_ptr : option (list T)) : ArrayPtr T := raw_ptr.

(** [GetRawPtr()]. *)
Definition GetRawPtr (p : ArrayPtr T) : option (list T) := p.

(** [operator->]. *)
Definition ArrayPtr_arrow (p : ArrayPtr T) : outcome (option (list T)) :=
  match p with
  | None => Throw logic_error
  | Some blk => Ok (Some blk)
  end.

(** [SimpleVector(ReserveProxyObj reserved)], from the proxy object. *)
Definition SimpleVector_of_proxy (reserved : ReserveProxyObj)
  : outcome (SimpleVector T) :=
  SimpleVector_reserved (capacity reserved).

(** A caller that appends the items of a list, none of them an element of
    the vector, one after the other, and stops at the first call that
    throws. *)
Fixpoint PushBack_each (items : list T) : M (SimpleVector T) unit :=
  match items with
  | [] => mret tt
  | item :: rest => PushBack (Outside item);; PushBack_each rest
  end.
End Remaining.

(** What an element type with a strong order adds to [Element]: [x <=> x] is
    [equal], and [y <=> x] is [x <=> y] turned around. *)
Definition turned (c : strong_ordering) : strong_ordering :=
  match c with
  | less => greater
  | equal => equal
  | greater => less
  end.

(** What [std::strong_ordering] says of [<=>] on the element type: [x <=> x]
    is [equal]; [y <=> x] is [x <=> y] turned around; elements that compare
    [equal] compare alike to every other; [less] is transitive. *)
Definition strong_order (T : Type) `{Element T} : Prop :=
  (forall x : T, compare_three_way x x = equal) /\
  (forall x y : T, compare_three_way y x = turned (compare_three_way x y)) /\
  (forall x y z : T, compare_three_way x y = equal ->
     compare_three_way x z = compare_three_way y z) /\
  (forall x y z : T, compare_three_way x y = less ->
     compare_three_way y z = less -> compare_three_way x z = less).

(** What a constructor owes: a well-formed vector, or [std::bad_alloc]. *)
Definition establishes `{Element T, FreeStore T} (o : outcome (SimpleVector T)) : Prop :=
  match o with
  | Ok v => Inv v
  | Throw e => e = bad_alloc
  | Fault => False
  end.

(** What a member function owes: it returns or throws, and leaves a
    well-formed vector either way. *)
Definition preserves `{Element T, FreeStore T} {A}
  (m : M (SimpleVector T) A) (v : SimpleVector T) : Prop :=
  match m v with
  | (Ok _, v') | (Throw _, v') => Inv v'
  | (Fault, _) => False
  end.

(** The same for an operation on two objects of a store. *)
Definition preserves_all `{Element T, FreeStore T} {A}
  (m : M (Store T) A) (st : Store T) : Prop :=
  match m st with
  | (Ok _, st') | (Throw _, st') => forall a, Inv (st' a)
  | (Fault, _) => False
  end.

(** What a call that has to grow [v] owes: the capacity [c] afterwards, or
    [std::bad_alloc] with [v] untouched when the block for [required]
    elements cannot be had. *)
Definition grows_to `{Element T, FreeStore T} {R}
  (v : SimpleVector T) (required c : N) (r : outcome R * SimpleVector T) : Prop :=
  match r with
  | (Ok _, v') => capacity_ v' = c
  | (Throw e, v') =>
      e = bad_alloc /\ v' = v /\
      can_allocate (N.max (capacity_ v * 2) required) = false
  | (Fault, _) => False
  end.

(** What a caller has to see to for an argument passed by reference: the
    object is outside the vector, or it is a slot of the block and the call
    does not reallocate. *)
Definition stays_valid `{Element T, FreeStore T}
  (a : argument T) (v : SimpleVector T) : Prop :=
  match a with
  | Outside _ => True
  | Inside i => IsFull v = false /\ (i < length (block (items_ v)))%nat
  end.

(** The object an argument refers to when the call is made. *)
Definition referent `{Element T, FreeStore T}
  (a : argument T) (v : SimpleVector T) : option T :=
  match a with
  | Outside x => Some x
  | Inside i => block (items_ v) !! i
  end.

(** What [Insert] at [pos] finds behind the reference when it reads it, with
    the elements from [pos] on already one slot up: a reference to a slot in
    [pos + 1 .. size] then yields the element that was one slot below. *)
Definition read_after_shift `{Element T, FreeStore T}
  (a : argument T) (pos : nat) (v : SimpleVector T) : option T :=
  match a with
  | Outside x => Some x
  | Inside i =>
      block (items_ v) !!
        (if decide (pos < i <= N.to_nat (size_ v))%nat then (i - 1)%nat else i)
  end.

(** * Facts *)

(** ** The standard algorithms, slot by slot *)
Section AlgorithmFacts.
Context `{Element T}.
Implicit Types (blk src dst r : list T) (x g : T) (n first last i : nat).

Local Open Scope nat_scope.

Lemma store_Some blk i x :
  i < length blk -> store blk i x = Some (<[i := x]> blk).
Proof. intros Hi. unfold store. by rewrite decide_True. Qed.

Lemma store_inv blk i x r :
  store blk i x = Some r -> i < length blk /\ r = <[i := x]> blk.
Proof. unfold store. case_decide; naive_solver. Qed.

(** Case analysis on every [decide] of a slot-by-slot statement. *)
Ltac slots :=
  repeat (rewrite list_lookup_insert);
  rewrite ?length_insert;
  repeat case_decide; try done; try lia;
  repeat match goal with
  | |- ?l !! ?i = ?l !! ?j => f_equal; lia
  | H : ?a = ?b /\ _ |- _ => destruct H as [-> ?]
  | H : _ /\ _ |- _ => destruct H
  end; try done; try lia.

(** Close a goal about slot [j] of [l] with a read [Hx : l !! k = Some x]
    of the same slot. *)
Ltac same_slot Hx :=
  match type of Hx with
  | ?l !! ?k = _ =>
      match goal with
      | |- context [l !! ?j] => replace j with k by lia; rewrite Hx; done
      end
  end.

Lemma fill_loop_spec n first g blk :
  first + n <= length blk ->
  exists r, fill_loop n first g blk = Some r /\ length r = length blk /\
    forall i, r !! i = if decide (first <= i < first + n) then Some g else blk !! i.
Proof.
  revert first blk. induction n as [|n IH]; intros first blk Hn; simpl.
  - exists blk. repeat split; [done..|]. intros i. slots.
  - rewrite store_Some by lia. simpl.
    destruct (IH (S first) (<[first := g]> blk)) as (r & -> & Hlen & Hr).
    { rewrite length_insert. lia. }
    exists r. rewrite length_insert in Hlen. repeat split; [done..|].
    intros i. rewrite Hr. slots.
Qed.

Lemma copy_loop_spec n first src d_first dst :
  first + n <= length src -> d_first + n <= length dst ->
  exists r, copy_loop n first src d_first dst = Some r /\ length r = length dst /\
    forall i, r !! i =
      if decide (d_first <= i < d_first + n) then src !! (first + (i - d_first))
      else dst !! i.
Proof.
  revert first d_first dst. induction n as [|n IH]; intros first d dst Hs Hd; simpl.
  - exists dst. repeat split; [done..|]. intros i. slots.
  - destruct (lookup_lt_is_Some_2 src first) as [x Hx]; [lia|].
    rewrite Hx. simpl. rewrite store_Some by lia. simpl.
    destruct (IH (S first) (S d) (<[d := x]> dst)) as (r & -> & Hlen & Hr).
    { lia. } { rewrite length_insert. lia. }
    exists r. rewrite length_insert in Hlen. repeat split; [done..|].
    intros i. rewrite Hr. slots. same_slot Hx.
Qed.

Lemma move_to_loop_spec n first src d_first dst :
  first + n <= length src -> d_first + n <= length dst ->
  exists s r, move_to_loop n first src d_first dst = Some (s, r) /\
    length s = length src /\ length r = length dst /\
    forall i, r !! i =
      if decide (d_first <= i < d_first + n) then src !! (first + (i - d_first))
      else dst !! i.
Proof.
  revert first src d_first dst.
  induction n as [|n IH]; intros first src d dst Hs Hd; simpl.
  - exists src, dst. repeat split; [done..|]. intros i. slots.
  - destruct (lookup_lt_is_Some_2 src first) as [x Hx]; [lia|].
    rewrite Hx. simpl. rewrite store_Some by lia. simpl.
    destruct (IH (S first) (<[first := moved_from x]> src) (S d) (<[d := x]> dst))
      as (s & r & -> & Hlens & Hlen & Hr).
    { rewrite length_insert. lia. } { rewrite length_insert. lia. }
    exists s, r. rewrite length_insert in Hlen, Hlens. repeat split; [done..|].
    intros i. rewrite Hr. slots. same_slot Hx.
Qed.

Lemma move_loop_spec n first d_first blk :
  d_first < first -> first + n <= length blk ->
  exists r, move_loop n first d_first blk = Some r /\ length r = length blk /\
    forall i, r !! i =
      if decide (d_first <= i < d_first + n) then blk !! (first + (i - d_first))
      else if decide (first <= i < first + n) then moved_from <$> blk !! i
      else blk !! i.
Proof.
  revert first d_first blk.
  induction n as [|n IH]; intros first d blk Hd Hn; simpl.
  - exists blk. repeat split; [done..|]. intros i. slots.
  - destruct (lookup_lt_is_Some_2 blk first) as [x Hx]; [lia|].
    rewrite Hx. simpl. rewrite store_Some by lia. simpl.
    destruct (IH (S first) (S d) (<[first := moved_from x]> (<[d := x]> blk)))
      as (r & -> & Hlen & Hr).
    { lia. } { rewrite !length_insert. lia. }
    exists r. rewrite !length_insert in Hlen. repeat split; [done..|].
    intros i. rewrite Hr. slots; same_slot Hx.
Qed.

Lemma copy_backward_loop_spec n last d_last blk :
  last < d_last -> n <= last -> d_last <= length blk ->
  exists r, copy_backward_loop n last d_last blk = Some r /\ length r = length blk /\
    forall i, r !! i =
      if decide (d_last - n <= i < d_last) then blk !! (i - (d_last - last))
      else blk !! i.
Proof.
  revert last d_last blk.
  induction n as [|n IH]; intros last d blk Hd Hn Hlen; simpl.
  - exists blk. repeat split; [done..|]. intros i. slots.
  - destruct (lookup_lt_is_Some_2 blk (last - 1)) as [x Hx]; [lia|].
    rewrite Hx. simpl. rewrite store_Some by lia. simpl.
    destruct (IH (last - 1) (d - 1) (<[d - 1 := x]> blk)) as (r & -> & Hlen' & Hr).
    { lia. } { lia. } { rewrite length_insert. lia. }
    exists r. rewrite length_insert in Hlen'. repeat split; [done..|].
    intros i. rewrite Hr. slots. same_slot Hx.
Qed.

Lemma move_backward_loop_spec n last d_last blk :
  last < d_last -> n <= last -> d_last <= length blk ->
  exists r, move_backward_loop n last d_last blk = Some r /\ length r = length blk /\
    forall i, r !! i =
      if decide (d_last - n <= i < d_last) then blk !! (i - (d_last - last))
      else if decide (last - n <= i < last) then moved_from <$> blk !! i
      else blk !! i.
Proof.
  revert last d_last blk.
  induction n as [|n IH]; intros last d blk Hd Hn Hlen; simpl.
  - exists blk. repeat split; [done..|]. intros i. slots.
  - destruct (lookup_lt_is_Some_2 blk (last - 1)) as [x Hx]; [lia|].
    rewrite Hx. simpl. rewrite store_Some by lia. simpl.
    destruct (IH (last - 1) (d - 1)
                (<[last - 1 := moved_from x]> (<[d - 1 := x]> blk)))
      as (r & -> & Hlen' & Hr).
    { lia. } { lia. } { rewrite !length_insert. lia. }
    exists r. rewrite !length_insert in Hlen'. repeat split; [done..|].
    intros i. rewrite Hr. slots; same_slot Hx.
Qed.

Lemma compare_loop_spec n1 n2 f1 f2 (blk1 blk2 : list T) :
  f1 + n1 <= length blk1 -> f2 + n2 <= length blk2 ->
  compare_loop n1 n2 f1 f2 blk1 blk2
  = Some (lexicographic (take n1 (drop f1 blk1)) (take n2 (drop f2 blk2))).
Proof.
  revert n2 f1 f2. induction n1 as [|n1 IH]; intros [|n2] f1 f2 H1 H2; simpl.
  - done.
  - destruct (lookup_lt_is_Some_2 blk2 f2) as [y Hy]; [lia|].
    by rewrite (drop_S _ _ _ Hy).
  - destruct (lookup_lt_is_Some_2 blk1 f1) as [x Hx]; [lia|].
    by rewrite (drop_S _ _ _ Hx).
  - destruct (lookup_lt_is_Some_2 blk1 f1) as [x Hx]; [lia|].
    destruct (lookup_lt_is_Some_2 blk2 f2) as [y Hy]; [lia|].
    rewrite Hx, Hy, (drop_S _ _ _ Hx), (drop_S _ _ _ Hy). simpl.
    destruct (compare_three_way x y); [done| |done].
    apply IH; lia.
Qed.

(** The same for the calls on iterator ranges. *)

Lemma std_fill_spec first last g blk :
  first <= last -> last <= length blk ->
  exists r, std_fill first last g blk = Some r /\ length r = length blk /\
    forall i, r !! i = if decide (first <= i < last) then Some g else blk !! i.
Proof.
  intros Hfl Hlen. unfold std_fill.
  destruct (fill_loop_spec (last - first) first g blk) as (r & Hr & Hlenr & Hslots);
    [lia|].
  exists r. repeat split; [done..|]. intros i. rewrite Hslots. slots.
Qed.

Lemma std_generate_spec first last g blk :
  first <= last -> last <= length blk ->
  exists r, std_generate first last g blk = Some r /\ length r = length blk /\
    forall i, r !! i = if decide (first <= i < last) then Some g else blk !! i.
Proof. apply std_fill_spec. Qed.

Lemma std_copy_spec first last src d_first dst :
  first <= last -> last <= length src -> d_first + (last - first) <= length dst ->
  exists r, std_copy first last src d_first dst = Some r /\ length r = length dst /\
    forall i, r !! i =
      if decide (d_first <= i < d_first + (last - first))
      then src !! (first + (i - d_first))
      else dst !! i.
Proof. intros Hfl Hs Hd. unfold std_copy. apply copy_loop_spec; lia. Qed.

Lemma std_move_to_spec first last src d_first dst :
  first <= last -> last <= length src -> d_first + (last - first) <= length dst ->
  exists s r, std_move_to first last src d_first dst = Some (s, r) /\
    length s = length src /\ length r = length dst /\
    forall i, r !! i =
      if decide (d_first <= i < d_first + (last - first))
      then src !! (first + (i - d_first))
      else dst !! i.
Proof. intros Hfl Hs Hd. unfold std_move_to. apply move_to_loop_spec; lia. Qed.

Lemma std_move_spec first last d_first blk :
  d_first < first -> first <= last -> last <= length blk ->
  exists r, std_move first last d_first blk = Some r /\ length r = length blk /\
    forall i, r !! i =
      if decide (d_first <= i < d_first + (last - first))
      then blk !! (first + (i - d_first))
      else if decide (first <= i < last) then moved_from <$> blk !! i
      else blk !! i.
Proof.
  intros Hd Hfl Hlen. unfold std_move.
  destruct (move_loop_spec (last - first) first d_first blk)
    as (r & Hr & Hlenr & Hslots); [lia..|].
  exists r. repeat split; [done..|]. intros i. rewrite Hslots. slots.
Qed.

Lemma std_copy_backward_spec first last d_last blk :
  first <= last -> last < d_last -> d_last <= length blk ->
  exists r, std_copy_backward first last d_last blk = Some r /\
    length r = length blk /\
    forall i, r !! i =
      if decide (d_last - (last - first) <= i < d_last)
      then blk !! (i - (d_last - last))
      else blk !! i.
Proof.
  intros Hfl Hd Hlen. unfold std_copy_backward.
  apply copy_backward_loop_spec; lia.
Qed.

Lemma std_copy_backward_move_spec first last d_last blk :
  first <= last -> last < d_last -> d_last <= length blk ->
  exists r, std_copy_backward_move first last d_last blk = Some r /\
    length r = length blk /\
    forall i, r !! i =
      if decide (d_last - (last - first) <= i < d_last)
      then blk !! (i - (d_last - last))
      else if decide (first <= i < last) then moved_from <$> blk !! i
      else blk !! i.
Proof.
  intros Hfl Hd Hlen. unfold std_copy_backward_move.
  destruct (move_backward_loop_spec (last - first) last d_last blk)
    as (r & Hr & Hlenr & Hslots); [lia..|].
  exists r. repeat split; [done..|]. intros i. rewrite Hslots. slots.
Qed.

Lemma std_lexicographical_compare_three_way_spec f1 l1 (blk1 : list T) f2 l2 blk2 :
  f1 <= l1 -> l1 <= length blk1 -> f2 <= l2 -> l2 <= length blk2 ->
  std_lexicographical_compare_three_way f1 l1 blk1 f2 l2 blk2
  = Some (lexicographic (take (l1 - f1) (drop f1 blk1)) (take (l2 - f2) (drop f2 blk2))).
Proof.
  intros. unfold std_lexicographical_compare_three_way.
  apply compare_loop_spec; lia.
Qed.
End AlgorithmFacts.

(** ** [size_t] arithmetic in range *)

Lemma size_t_wrap_small x : x < 2 ^ 64 -> size_t_wrap x = x.
Proof. intros Hx. unfold size_t_wrap. by apply N.mod_small. Qed.

Lemma size_t_inc_small a : a <= PTRDIFF_MAX -> size_t_inc a = a + 1.
Proof.
  unfold PTRDIFF_MAX, size_t_inc. intros Ha. apply size_t_wrap_small. lia.
Qed.

Lemma size_t_dec_pos a : 0 < a -> a <= PTRDIFF_MAX -> size_t_dec a = a - 1.
Proof.
  unfold PTRDIFF_MAX, size_t_dec, size_t_wrap, SIZE_MAX. intros Hpos Ha.
  replace (a + (2 ^ 64 - 1)) with ((a - 1) + 1 * 2 ^ 64) by lia.
  rewrite N.Div0.mod_add. apply N.mod_small. lia.
Qed.

Lemma size_t_double_small a : a <= PTRDIFF_MAX -> size_t_mul a 2 = a * 2.
Proof.
  unfold PTRDIFF_MAX, size_t_mul. intros Ha. apply size_t_wrap_small. lia.
Qed.

(** ** Construction *)
Section VectorFacts.
Context `{Element T, FreeStore T}.
Implicit Types (v this other : SimpleVector T) (p : ArrayPtr T) (blk : list T).

Lemma new_array_spec n :
  if can_allocate n
  then exists blk, new_array n = Ok blk /\ length blk = N.to_nat n
  else new_array n = Throw bad_alloc.
Proof.
  unfold new_array. destruct (can_allocate n); [|done].
  eexists. split; [done|]. by rewrite length_map, length_seq.
Qed.

Lemma ArrayPtr_sized_spec size :
  if (size =? 0) || can_allocate size
  then exists p, ArrayPtr_sized size = Ok p /\ length (block p) = N.to_nat size /\
         ArrayPtr_bool p = (0 <? size)
  else ArrayPtr_sized size = Throw bad_alloc.
Proof.
  unfold ArrayPtr_sized. pose proof (new_array_spec size) as Hnew.
  destruct (N.ltb_spec 0 size) as [Hpos|Hzero].
  - destruct (N.eqb_spec size 0); [lia|]. simpl. destruct (can_allocate size).
    + destruct Hnew as (blk & -> & Hlen). by exists (Some blk).
    + by rewrite Hnew.
  - assert (size = 0) as -> by lia. by exists None.
Qed.

(** The block of a vector after a standard algorithm left [blk] in it. *)
Lemma block_set_block p blk :
  length blk = length (block p) -> block (set_block p blk) = blk.
Proof.
  destruct p; simpl; [done|]. intros Hlen. symmetry. by apply nil_length_inv.
Qed.


Lemma ArrayPtr_bool_set_block p blk :
  ArrayPtr_bool (set_block p blk) = ArrayPtr_bool p.
Proof. by destruct p. Qed.

Lemma bind_run {S A B} (m : M S A) (f : A -> M S B) (s : S) :
  (m ≫= f) s =
  match m s with
  | (Ok a, s') => f a s'
  | (Throw e, s') => (Throw e, s')
  | (Fault, s') => (Fault, s')
  end.
Proof. done. Qed.

Lemma ret_run {S A} (a : A) (s : S) : (mret a : M S A) s = (Ok a, s).
Proof. done. Qed.

(** Step through the binds of a computation. *)
Ltac run :=
  repeat (first [ rewrite bind_run | rewrite ret_run
                | progress unfold put, get, lift, throw, access ]; simpl).

Lemma on_block_run (f : list T -> option (list T)) v r :
  f (block (items_ v)) = Some r ->
  on_block f v = (Ok tt, set_items v (set_block (items_ v) r)).
Proof. intros Hr. unfold on_block. rewrite !bind_run. simpl. by rewrite Hr. Qed.

(** Every constructor that allocates: [fill] is what its body leaves in the
    block. *)
Lemma constructed_spec size (body : M (SimpleVector T) unit) (fill : list T) :
  length fill = N.to_nat size ->
  (forall p, length (block p) = N.to_nat size ->
     body {| items_ := p; size_ := size; capacity_ := size |}
     = (Ok tt, {| items_ := set_block p fill; size_ := size; capacity_ := size |})) ->
  if (size =? 0) || can_allocate size
  then exists p, (items ← ArrayPtr_sized size;
                  construct {| items_ := items; size_ := size; capacity_ := size |} body)
                 = Ok {| items_ := p; size_ := size; capacity_ := size |} /\
         block p = fill /\ ArrayPtr_bool p = (0 <? size)
  else (items ← ArrayPtr_sized size;
        construct {| items_ := items; size_ := size; capacity_ := size |} body)
       = Throw bad_alloc.
Proof.
  intros Hfill Hbody. pose proof (ArrayPtr_sized_spec size) as Hp.
  destruct ((size =? 0) || can_allocate size); [|by rewrite Hp].
  destruct Hp as (p & -> & Hlen & Hbool). simpl.
  unfold construct. rewrite (Hbody p Hlen).
  exists (set_block p fill). split; [done|].
  rewrite block_set_block, ArrayPtr_bool_set_block by congruence. done.
Qed.

Lemma SimpleVector_filled_spec size value :
  if (size =? 0) || can_allocate size
  then exists p, SimpleVector_filled size value
                 = Ok {| items_ := p; size_ := size; capacity_ := size |} /\
         block p = replicate (N.to_nat size) value /\ ArrayPtr_bool p = (0 <? size)
  else SimpleVector_filled size value = Throw bad_alloc.
Proof.
  apply constructed_spec; [by rewrite length_replicate|].
  intros p Hlen. rewrite bind_run. simpl. unfold begin, end'. simpl.
  destruct (std_fill_spec 0 (N.to_nat size) value (block p))
    as (r & Hr & Hlenr & Hslots); [lia..|].
  rewrite (on_block_run _ _ r) by done. unfold set_items. simpl.
  do 3 f_equal. apply list_eq. intros i. rewrite Hslots. case_decide.
  - by rewrite lookup_replicate_2 by lia.
  - rewrite !lookup_ge_None_2; [done|rewrite length_replicate; lia|lia].
Qed.

Lemma SimpleVector_sized_spec size :
  if (size =? 0) || can_allocate size
  then exists p, SimpleVector_sized size
                 = Ok {| items_ := p; size_ := size; capacity_ := size |} /\
         block p = replicate (N.to_nat size) default_value /\
         ArrayPtr_bool p = (0 <? size)
  else SimpleVector_sized size = Throw bad_alloc.
Proof. apply SimpleVector_filled_spec. Qed.

(** ** Growth *)

Lemma Inv_bounds v :
  Inv v ->
  size_ v <= capacity_ v /\
  (N.to_nat (capacity_ v) <= length (block (items_ v)))%nat /\
  N.of_nat (length (block (items_ v))) < 2 ^ 63.
Proof.
  intros [Hs _ Hc Ha]. unfold allocated, PTRDIFF_MAX in *. lia.
Qed.

Lemma NewCapacity_spec v new_size :
  Inv v -> NewCapacity v new_size = N.max (capacity_ v * 2) new_size.
Proof.
  intros (? & ? & ?)%Inv_bounds. unfold NewCapacity.
  rewrite size_t_double_small; [done|]. unfold PTRDIFF_MAX. lia.
Qed.

Lemma set_block_Some p blk : ArrayPtr_bool p = true -> set_block p blk = Some blk.
Proof. by destruct p. Qed.

Lemma std_move_to_migrated v c p :
  Inv v -> size_ v <= c -> block p = replicate (N.to_nat c) default_value ->
  exists s r,
    std_move_to (begin v) (end' v) (block (items_ v)) 0 (block p) = Some (s, r) /\
    migrated v c r.
Proof.
  intros Hinv Hc Hblk.
  pose proof (Inv_bounds v Hinv) as (Hsize & Hcap & Hlen).
  unfold begin, end'. simpl.
  destruct (std_move_to_spec 0 (N.to_nat (size_ v)) (block (items_ v)) 0 (block p))
    as (s & r & Hmv & Hlens & Hlenr & Hslots).
  { lia. } { lia. } { rewrite Hblk, length_replicate. lia. }
  exists s, r. split; [done|]. split.
  - by rewrite Hlenr, Hblk, length_replicate.
  - intros i. rewrite Hslots, Hblk. repeat case_decide; try lia.
    + f_equal. lia.
    + by rewrite lookup_replicate_2 by lia.
    + apply lookup_ge_None_2. rewrite length_replicate. lia.
Qed.

Lemma IncCapacity_spec v :
  Inv v ->
  let c := N.max (capacity_ v * 2) 1 in
  if can_allocate c
  then exists blk, IncCapacity v
         = (Ok tt, {| items_ := Some blk; size_ := size_ v; capacity_ := c |}) /\
         migrated v c blk
  else IncCapacity v = (Throw bad_alloc, v).
Proof.
  intros Hinv c. pose proof (Inv_bounds v Hinv) as (Hsize & Hcap & Hlen).
  unfold IncCapacity. rewrite !bind_run. simpl. unfold lift at 1.
  rewrite NewCapacity_spec by done. fold c.
  pose proof (SimpleVector_sized_spec c) as Hbuf.
  destruct (N.eqb_spec c 0); [lia|]. simpl in Hbuf.
  destruct (can_allocate c); [|by rewrite Hbuf].
  destruct Hbuf as (p & -> & Hblk & Hbool).
  rewrite bind_run. unfold lift. simpl.
  destruct (std_move_to_migrated v c p) as (s & r & Hmv & Hmig); [done|lia|done|].
  change (begin (set_size _ _)) with 0%nat.
  rewrite Hmv. rewrite bind_run. simpl.
  rewrite set_block_Some by (rewrite Hbool; apply N.ltb_lt; lia).
  by exists r.
Qed.

Lemma length_elements v : Inv v -> length (elements v) = N.to_nat (size_ v).
Proof.
  intros (? & ? & ?)%Inv_bounds. unfold elements. rewrite length_take. lia.
Qed.

Lemma lookup_elements v (i : nat) :
  elements v !! i
  = if decide (i < N.to_nat (size_ v))%nat then block (items_ v) !! i else None.
Proof. unfold elements. apply lookup_take. Qed.

(** A vector is well formed when its numbers fit its block. *)
Lemma Inv_intro v :
  size_ v <= capacity_ v ->
  (N.to_nat (capacity_ v) <= length (block (items_ v)))%nat ->
  N.of_nat (length (block (items_ v))) < 2 ^ 63 ->
  Inv v.
Proof.
  intros Hs Hc Ha. split; unfold allocated, PTRDIFF_MAX; [done| |lia|lia].
  intros i Hi. unfold ArrayPtr_index. apply lookup_lt_is_Some_2. lia.
Qed.

Lemma migrated_Inv v c blk :
  migrated v c blk -> size_ v <= c -> can_allocate c = true ->
  Inv {| items_ := Some blk; size_ := size_ v; capacity_ := c |}.
Proof.
  intros [Hlen _] Hs Hc%can_allocate_bound. unfold PTRDIFF_MAX in Hc.
  apply Inv_intro; simpl; lia.
Qed.

Lemma migrated_elements v c blk :
  migrated v c blk ->
  elements {| items_ := Some blk; size_ := size_ v; capacity_ := c |} = elements v.
Proof.
  intros [Hlen Hslots]. apply list_eq. intros i.
  rewrite !lookup_elements. simpl. rewrite Hslots. by repeat case_decide.
Qed.

(** [if (IsFull()) IncCapacity();] *)
Lemma make_room_spec v :
  Inv v ->
  match (if IsFull v then IncCapacity else mret tt) v with
  | (Ok _, v1) =>
      Inv v1 /\ size_ v1 = size_ v /\ elements v1 = elements v /\
      size_ v1 < capacity_ v1 /\
      capacity_ v1 = (if IsFull v then N.max (capacity_ v * 2) 1 else capacity_ v)
  | (Throw e, v1) =>
      e = bad_alloc /\ v1 = v /\ IsFull v = true /\
      can_allocate (N.max (capacity_ v * 2) 1) = false
  | (Fault, _) => False
  end.
Proof.
  intros Hinv. pose proof (Inv_bounds v Hinv) as (Hsize & Hcap & Hlen).
  unfold IsFull. destruct (N.eqb_spec (size_ v) (capacity_ v)) as [Hfull|Hroom].
  - pose proof (IncCapacity_spec v Hinv) as Hgrow. simpl in Hgrow.
    destruct (can_allocate (N.max (capacity_ v * 2) 1)) eqn:Hfit.
    + destruct Hgrow as (blk & -> & Hmig). simpl.
      split; [apply migrated_Inv; [done|lia|done]|].
      split; [done|]. split; [by apply migrated_elements|]. split; [lia|done].
    + rewrite Hgrow. done.
  - rewrite ret_run. split; [done|]. repeat split. lia.
Qed.

(** ** Appending and inserting *)

Lemma block_written v r :
  length r = length (block (items_ v)) ->
  block (set_block (items_ v) r) = r.
Proof. apply block_set_block. Qed.

(** Read through the blocks that algorithms wrote back. *)
Ltac written :=
  repeat first
    [ rewrite length_insert
    | rewrite block_set_block by (written; congruence) ].

Lemma PushBack_spec item v :
  Inv v ->
  match PushBack (Outside item) v with
  | (Ok _, v') =>
      Inv v' /\ size_ v' = size_ v + 1 /\ elements v' = elements v ++ [item] /\
      capacity_ v' = (if IsFull v then N.max (capacity_ v * 2) 1 else capacity_ v)
  | (Throw e, v') =>
      e = bad_alloc /\ v' = v /\ IsFull v = true /\
      can_allocate (N.max (capacity_ v * 2) 1) = false
  | (Fault, _) => False
  end.
Proof.
  intros Hinv. unfold PushBack. rewrite bind_run. simpl. rewrite bind_run.
  pose proof (make_room_spec v Hinv) as Hroom.
  destruct ((if IsFull v then IncCapacity else mret tt) v) as [[[]|e|] v1];
    [|done..].
  destruct Hroom as (Hinv1 & Hs1 & He1 & Hlt & Hc1).
  pose proof (Inv_bounds v1 Hinv1) as (Hsize & Hcap & Hlen).
  rewrite bind_run. unfold read_argument. rewrite ret_run.
  rewrite bind_run. simpl. rewrite bind_run. unfold lift.
  rewrite store_Some by lia. simpl.
  rewrite size_t_inc_small by (unfold PTRDIFF_MAX; lia).
  split; [|split; [lia|split; [|done]]].
  - apply Inv_intro; simpl;
      rewrite ?block_written, ?length_insert by (by rewrite length_insert); lia.
  - unfold elements at 1. simpl. rewrite block_written by by rewrite length_insert.
    rewrite <- He1. unfold elements.
    destruct (lookup_lt_is_Some_2 (block (items_ v1)) (N.to_nat (size_ v1)))
      as [y Hy]; [lia|].
    replace (N.to_nat (size_ v1 + 1)) with (S (N.to_nat (size_ v1))) by lia.
    rewrite (take_S_r _ _ item).
    + by rewrite take_insert_ge by lia.
    + by rewrite list_lookup_insert_eq by lia.
Qed.

Lemma lookup_inserted (l : list T) (pos : nat) x (i : nat) :
  (pos <= length l)%nat ->
  (take pos l ++ x :: drop pos l) !! i
  = if decide (i < pos)%nat then l !! i
    else if decide (i = pos) then Some x
    else l !! (i - 1)%nat.
Proof.
  intros Hpos. repeat case_decide.
  - rewrite lookup_app_l by (rewrite length_take; lia). by apply lookup_take_lt.
  - subst i. rewrite lookup_app_r by (rewrite length_take; lia).
    rewrite length_take. by replace (pos - pos `min` length l)%nat with 0%nat by lia.
  - rewrite lookup_app_r by (rewrite length_take; lia). rewrite length_take.
    replace (i - pos `min` length l)%nat with (S (i - pos - 1)) by lia. simpl.
    rewrite lookup_drop. f_equal. lia.
Qed.

Lemma lookup_erased (l : list T) (pos i : nat) :
  (pos <= length l)%nat ->
  (take pos l ++ drop (S pos) l) !! i
  = if decide (i < pos)%nat then l !! i else l !! (S i).
Proof.
  intros Hpos. case_decide.
  - rewrite lookup_app_l by (rewrite length_take; lia). by apply lookup_take_lt.
  - rewrite lookup_app_r by (rewrite length_take; lia). rewrite length_take.
    rewrite lookup_drop. f_equal. lia.
Qed.

(** Both overloads of [Insert] run the same code around the call that moves
    the tail one slot up, [shift]; all that matters of [shift] is what it
    leaves in the slots other than [first]. *)
Lemma Insert_with_spec (shift : nat -> nat -> nat -> list T -> option (list T)) :
  (forall (first last d_last : nat) blk,
     (first <= last)%nat -> d_last = S last -> (d_last <= length blk)%nat ->
     exists r, shift first last d_last blk = Some r /\ length r = length blk /\
       forall i : nat, i <> first -> r !! i =
         if decide (first < i <= last)%nat then blk !! (i - 1)%nat else blk !! i) ->
  forall (pos : nat) value v,
  Inv v ->
  match (this ← get;
         lift (assert (bool_decide (begin this ≤ pos ∧ pos ≤ end' this)%nat));;
         let offset := (pos - cbegin this)%nat in
         (if IsFull this then IncCapacity else mret tt);;
         this ← get;
         put (set_size this (size_t_inc (size_ this)));;
         this ← get;
         let it := (begin this + offset)%nat in
         on_block (shift it (end' this - 1)%nat (end' this));;
         on_block (fun blk => store blk it value);;
         mret it) v with
  | (Ok it, v') =>
      (pos <= N.to_nat (size_ v))%nat /\ it = pos /\ Inv v' /\
      size_ v' = size_ v + 1 /\
      elements v' = take pos (elements v) ++ value :: drop pos (elements v) /\
      capacity_ v' = (if IsFull v then N.max (capacity_ v * 2) 1 else capacity_ v)
  | (Throw e, v') =>
      e = bad_alloc /\ v' = v /\ IsFull v = true /\
      can_allocate (N.max (capacity_ v * 2) 1) = false
  | (Fault, _) => (N.to_nat (size_ v) < pos)%nat
  end.
Proof.
  intros shift_spec pos value v Hinv.
  rewrite bind_run. simpl. rewrite bind_run.
  unfold lift at 1, assert, end', cbegin, begin.
  pose proof (Inv_bounds v Hinv) as (Hsize0 & Hcap0 & Hlen0).
  case_bool_decide as Hpos; [|lia].
  rewrite bind_run.
  pose proof (make_room_spec v Hinv) as Hroom.
  destruct ((if IsFull v then IncCapacity else mret tt) v) as [[[]|e|] v1];
    [|done..].
  destruct Hroom as (Hinv1 & Hs1 & He1 & Hlt & Hc1).
  pose proof (Inv_bounds v1 Hinv1) as (Hsize & Hcap & Hlen).
  rewrite bind_run. simpl. rewrite bind_run. simpl. rewrite bind_run. simpl.
  rewrite size_t_inc_small by (unfold PTRDIFF_MAX; lia).
  rewrite bind_run. unfold begin, end'. simpl.
  destruct (shift_spec (pos - 0)%nat (N.to_nat (size_ v1 + 1) - 1)%nat
              (N.to_nat (size_ v1 + 1)) (block (items_ v1)))
    as (r & Hr & Hlenr & Hslots); [lia..|].
  rewrite (on_block_run _ _ r) by done. rewrite bind_run.
  rewrite (on_block_run _ _ (<[(pos - 0)%nat := value]> r))
    by (simpl; written; apply store_Some; lia).
  rewrite ret_run. simpl.
  split; [lia|]. split; [lia|]. split.
  { apply Inv_intro; simpl; written; lia. }
  split; [lia|]. split; [|done].
  rewrite <- He1. apply list_eq. intros i.
  rewrite lookup_inserted by (rewrite length_elements by done; lia).
  rewrite !lookup_elements. simpl.
  written. rewrite list_lookup_insert.
  destruct (decide (i = pos)) as [->|Hne].
  - repeat case_decide; try done; lia.
  - rewrite Hslots by lia.
    repeat case_decide; try done; try lia; try (f_equal; lia).
Qed.

Lemma Insert_spec (pos : nat) value v :
  Inv v ->
  match Insert pos (Outside value) v with
  | (Ok it, v') =>
      (pos <= N.to_nat (size_ v))%nat /\ it = pos /\ Inv v' /\
      size_ v' = size_ v + 1 /\
      elements v' = take pos (elements v) ++ value :: drop pos (elements v) /\
      capacity_ v' = (if IsFull v then N.max (capacity_ v * 2) 1 else capacity_ v)
  | (Throw e, v') =>
      e = bad_alloc /\ v' = v /\ IsFull v = true /\
      can_allocate (N.max (capacity_ v * 2) 1) = false
  | (Fault, _) => (N.to_nat (size_ v) < pos)%nat
  end.
Proof.
  apply (Insert_with_spec std_copy_backward).
  intros first last d_last blk Hfl Hd Hlen.
  destruct (std_copy_backward_spec first last d_last blk) as (r & Hr & Hlenr & Hslots);
    [lia..|].
  exists r. repeat split; [done..|]. intros i Hi. rewrite Hslots.
  repeat case_decide; try done; try lia. f_equal. lia.
Qed.

Lemma Insert_rvalue_spec (pos : nat) value v :
  Inv v ->
  match Insert_rvalue pos (Outside value) v with
  | (Ok it, v') =>
      (pos <= N.to_nat (size_ v))%nat /\ it = pos /\ Inv v' /\
      size_ v' = size_ v + 1 /\
      elements v' = take pos (elements v) ++ value :: drop pos (elements v) /\
      capacity_ v' = (if IsFull v then N.max (capacity_ v * 2) 1 else capacity_ v)
  | (Throw e, v') =>
      e = bad_alloc /\ v' = v /\ IsFull v = true /\
      can_allocate (N.max (capacity_ v * 2) 1) = false
  | (Fault, _) => (N.to_nat (size_ v) < pos)%nat
  end.
Proof.
  apply (Insert_with_spec std_copy_backward_move).
  intros first last d_last blk Hfl Hd Hlen.
  destruct (std_copy_backward_move_spec first last d_last blk)
    as (r & Hr & Hlenr & Hslots); [lia..|].
  exists r. repeat split; [done..|]. intros i Hi. rewrite Hslots.
  repeat case_decide; try done; try lia. f_equal. lia.
Qed.

(** ** Arguments that refer into the vector *)

(** [PushBack(Type&&)] of an object outside the vector does what
    [PushBack(const Type&)] does. *)
Lemma PushBack_rvalue_outside item v :
  PushBack_rvalue (Outside item) v = PushBack (Outside item) v.
Proof.
  unfold PushBack_rvalue, PushBack. rewrite !bind_run. simpl. rewrite !bind_run.
  destruct ((if IsFull v then IncCapacity else mret tt) v) as [[[]|e|] v1]; [|done..].
  unfold read_argument, leave_moved_from. rewrite !bind_run, !ret_run.
  rewrite !bind_run. simpl. rewrite !bind_run. unfold lift, access.
  by destruct (store _ _ _).
Qed.

(** On a full vector the reference is read after [IncCapacity] deleted the
    block it points into. *)
Lemma dangling_argument_spec (pos i : nat) v :
  Inv v -> IsFull v = true -> (pos <= N.to_nat (size_ v))%nat ->
  (PushBack (Inside i) v).1
    = (if can_allocate (N.max (capacity_ v * 2) 1) then Fault else Throw bad_alloc) /\
  (PushBack_rvalue (Inside i) v).1
    = (if can_allocate (N.max (capacity_ v * 2) 1) then Fault else Throw bad_alloc) /\
  (Insert pos (Inside i) v).1
    = (if can_allocate (N.max (capacity_ v * 2) 1) then Fault else Throw bad_alloc) /\
  (Insert_rvalue pos (Inside i) v).1
    = (if can_allocate (N.max (capacity_ v * 2) 1) then Fault else Throw bad_alloc).
Proof.
  intros Hinv Hfull Hpos.
  pose proof (IncCapacity_spec v Hinv) as Hgrow. simpl in Hgrow.
  unfold PushBack, PushBack_rvalue, Insert, Insert_rvalue.
  rewrite !bind_run. simpl. rewrite !bind_run.
  unfold assert, end', cbegin, begin.
  rewrite bool_decide_eq_true_2 by lia. rewrite Hfull.
  destruct (can_allocate (N.max (capacity_ v * 2) 1)).
  - destruct Hgrow as (blk & Hrun & _). repeat split; try (by rewrite Hrun).
    + unfold lift at 1. simpl. rewrite !bind_run, Hrun. run.
      unfold on_block at 1. run. by destruct (std_copy_backward _ _ _ _).
    + unfold lift at 1. simpl. rewrite !bind_run, Hrun. run.
      unfold on_block at 1. run. by destruct (std_copy_backward_move _ _ _ _).
  - repeat split; try (by rewrite Hgrow).
    all: unfold lift at 1; simpl; by rewrite !bind_run, Hgrow.
Qed.

(** [PushBack] of an element of a vector that has room. *)
Lemma PushBack_inside_spec (moves : bool) (i : nat) v :
  Inv v -> IsFull v = false -> (i < length (block (items_ v)))%nat ->
  match (if moves then PushBack_rvalue (Inside i) v else PushBack (Inside i) v) with
  | (Ok _, v') =>
      Inv v' /\ size_ v' = size_ v + 1 /\
      (moves = false ->
       exists x, block (items_ v) !! i = Some x /\ elements v' = elements v ++ [x]) /\
      capacity_ v' = capacity_ v
  | (Throw _, _) | (Fault, _) => False
  end.
Proof.
  intros Hinv Hfull Hi.
  pose proof (Inv_bounds v Hinv) as (Hsize & Hcap & Hlen).
  assert (size_ v < capacity_ v) as Hlt.
  { unfold IsFull in Hfull. apply N.eqb_neq in Hfull. lia. }
  destruct (lookup_lt_is_Some_2 (block (items_ v)) i Hi) as [x Hx].
  assert (PushBack (Inside i) v =
    (Ok tt, set_size (set_items v (set_block (items_ v)
       (<[N.to_nat (size_ v) := x]> (block (items_ v))))) (size_ v + 1))) as Hrun.
  { unfold PushBack. rewrite bind_run. simpl. rewrite bind_run, Hfull, ret_run.
    run. rewrite Hx. simpl. run. rewrite store_Some by lia. simpl.
    by rewrite size_t_inc_small by (unfold PTRDIFF_MAX; lia). }
  assert (Inv (set_size (set_items v (set_block (items_ v)
       (<[N.to_nat (size_ v) := x]> (block (items_ v))))) (size_ v + 1))) as Hinv'.
  { apply Inv_intro; simpl;
      rewrite ?block_written, ?length_insert by (by rewrite length_insert); lia. }
  destruct moves.
  - unfold PushBack_rvalue. rewrite bind_run. simpl. rewrite bind_run, Hfull, ret_run.
    run. rewrite Hx. simpl. run. rewrite store_Some by lia. simpl.
    rewrite size_t_inc_small by (unfold PTRDIFF_MAX; lia).
    rewrite bind_run. simpl. unfold leave_moved_from.
    rewrite (on_block_run _ _ (<[i := moved_from x]>
       (<[N.to_nat (size_ v) := x]> (block (items_ v)))))
      by (simpl; written; apply store_Some; written; lia).
    split; [|done].
    apply Inv_intro; simpl; written; lia.
  - rewrite Hrun. split; [done|]. split; [done|]. split; [|done].
    intros _. exists x. split; [done|].
    unfold elements at 1. simpl. rewrite block_written by by rewrite length_insert.
    unfold elements.
    replace (N.to_nat (size_ v + 1)) with (S (N.to_nat (size_ v))) by lia.
    rewrite (take_S_r _ _ x).
    + by rewrite take_insert_ge by lia.
    + by rewrite list_lookup_insert_eq by lia.
Qed.

(** [Insert] of an element of a vector that has room: the reference is read
    after the tail moved one slot up. *)
Lemma Insert_inside_with (shift : nat -> nat -> nat -> list T -> option (list T))
  (moves : bool) :
  (forall (first last d_last : nat) blk,
     (first <= last)%nat -> d_last = S last -> (d_last <= length blk)%nat ->
     exists r, shift first last d_last blk = Some r /\ length r = length blk /\
       forall i : nat, i <> first -> r !! i =
         if decide (first < i <= last)%nat then blk !! (i - 1)%nat else blk !! i) ->
  forall (pos i : nat) v,
  Inv v -> IsFull v = false -> (i < length (block (items_ v)))%nat ->
  match (this ← get;
         lift (assert (bool_decide (begin this ≤ pos ∧ pos ≤ end' this)%nat));;
         let offset := (pos - cbegin this)%nat in
         let reallocated := IsFull this in
         (if IsFull this then IncCapacity else mret tt);;
         this ← get;
         put (set_size this (size_t_inc (size_ this)));;
         this ← get;
         let it := (begin this + offset)%nat in
         on_block (shift it (end' this - 1)%nat (end' this));;
         x ← read_argument reallocated (Inside i);
         on_block (fun blk => store blk it x);;
         (if moves then leave_moved_from (Inside i) x else mret tt);;
         mret it) v with
  | (Ok it, v') =>
      (pos <= N.to_nat (size_ v))%nat /\ it = pos /\ Inv v' /\
      size_ v' = size_ v + 1 /\
      (moves = false ->
       exists x r,
         shift pos (N.to_nat (size_ v)) (S (N.to_nat (size_ v))) (block (items_ v))
           = Some r /\
         r !! i = Some x /\
         elements v' = take pos (elements v) ++ x :: drop pos (elements v)) /\
      capacity_ v' = capacity_ v
  | (Throw _, _) => False
  | (Fault, _) => (N.to_nat (size_ v) < pos)%nat
  end.
Proof.
  intros shift_spec pos i v Hinv Hfull Hi.
  rewrite bind_run. simpl. rewrite bind_run.
  unfold lift at 1, assert, end', cbegin, begin.
  pose proof (Inv_bounds v Hinv) as (Hsize & Hcap & Hlen).
  assert (size_ v < capacity_ v) as Hlt.
  { unfold IsFull in Hfull. apply N.eqb_neq in Hfull. lia. }
  case_bool_decide as Hpos; [|lia].
  rewrite bind_run, Hfull, ret_run.
  rewrite bind_run. simpl. rewrite bind_run. simpl. rewrite bind_run. simpl.
  rewrite size_t_inc_small by (unfold PTRDIFF_MAX; lia).
  rewrite bind_run. unfold begin, end'. simpl.
  destruct (shift_spec (pos - 0)%nat (N.to_nat (size_ v + 1) - 1)%nat
              (N.to_nat (size_ v + 1)) (block (items_ v)))
    as (r & Hr & Hlenr & Hslots); [lia..|].
  rewrite (on_block_run _ _ r) by done. rewrite bind_run.
  destruct (lookup_lt_is_Some_2 r i) as [x Hx]; [lia|].
  simpl. rewrite block_set_block, Hx by done. simpl.
  rewrite bind_run.
  rewrite (on_block_run _ _ (<[(pos - 0)%nat := x]> r))
    by (simpl; written; apply store_Some; lia).
  rewrite bind_run.
  destruct moves.
  - unfold leave_moved_from.
    rewrite (on_block_run _ _ (<[i := moved_from x]> (<[(pos - 0)%nat := x]> r)))
      by (simpl; written; apply store_Some; written; lia).
    rewrite ret_run. simpl.
    split; [lia|]. split; [lia|]. split.
    { apply Inv_intro; simpl; written; lia. }
    done.
  - rewrite ret_run, ret_run. simpl.
    split; [lia|]. split; [lia|]. split.
    { apply Inv_intro; simpl; written; lia. }
    split; [lia|]. split; [|done].
    intros _. exists x, r. split; [|split; [done|]].
    + rewrite <- Hr. f_equal; lia.
    + apply list_eq. intros j.
      rewrite lookup_inserted by (rewrite length_elements by done; lia).
      rewrite !lookup_elements. simpl.
      written. rewrite list_lookup_insert.
      destruct (decide (j = pos)) as [->|Hne].
      * repeat case_decide; try done; lia.
      * rewrite Hslots by lia.
        repeat case_decide; try done; try lia; try (f_equal; lia).
Qed.

Lemma std_copy_backward_shifts (first last d_last : nat) (blk : list T) :
  (first <= last)%nat -> d_last = S last -> (d_last <= length blk)%nat ->
  exists r, std_copy_backward first last d_last blk = Some r /\
    length r = length blk /\
    forall i : nat, i <> first -> r !! i =
      if decide (first < i <= last)%nat then blk !! (i - 1)%nat else blk !! i.
Proof.
  intros Hfl Hd Hlen.
  destruct (std_copy_backward_spec first last d_last blk) as (r & Hr & Hlenr & Hslots);
    [lia..|].
  exists r. repeat split; [done..|]. intros i Hi. rewrite Hslots.
  repeat case_decide; try done; try lia. f_equal. lia.
Qed.

Lemma std_copy_backward_move_shifts (first last d_last : nat) (blk : list T) :
  (first <= last)%nat -> d_last = S last -> (d_last <= length blk)%nat ->
  exists r, std_copy_backward_move first last d_last blk = Some r /\
    length r = length blk /\
    forall i : nat, i <> first -> r !! i =
      if decide (first < i <= last)%nat then blk !! (i - 1)%nat else blk !! i.
Proof.
  intros Hfl Hd Hlen.
  destruct (std_copy_backward_move_spec first last d_last blk)
    as (r & Hr & Hlenr & Hslots); [lia..|].
  exists r. repeat split; [done..|]. intros i Hi. rewrite Hslots.
  repeat case_decide; try done; try lia. f_equal. lia.
Qed.

Lemma Insert_inside_spec (pos i : nat) v :
  Inv v -> IsFull v = false -> (i < length (block (items_ v)))%nat ->
  match Insert pos (Inside i) v with
  | (Ok it, v') =>
      (pos <= N.to_nat (size_ v))%nat /\ it = pos /\ Inv v' /\
      size_ v' = size_ v + 1 /\
      (exists x, read_after_shift (Inside i) pos v = Some x /\
         elements v' = take pos (elements v) ++ x :: drop pos (elements v)) /\
      capacity_ v' = capacity_ v
  | (Throw _, _) => False
  | (Fault, _) => (N.to_nat (size_ v) < pos)%nat
  end.
Proof.
  intros Hinv Hfull Hi.
  pose proof (Insert_inside_with std_copy_backward false
                std_copy_backward_shifts pos i v Hinv Hfull Hi
    : match Insert pos (Inside i) v with
      | (Ok it, v') => _
      | (Throw _, _) => _
      | (Fault, _) => _
      end) as Hspec.
  destruct (Insert pos (Inside i) v) as [[it|e|] v']; [|done..].
  destruct Hspec as (Hpos & ? & ? & ? & Hx & ?).
  do 4 (split; [done|]). split; [|done].
  destruct (Hx eq_refl) as (x & r & Hr & Hrx & He). exists x. split; [|done].
  pose proof (Inv_bounds v Hinv) as (Hsize & Hcap & Hlen).
  assert (size_ v < capacity_ v) as Hlt.
  { unfold IsFull in Hfull. apply N.eqb_neq in Hfull. lia. }
  destruct (std_copy_backward_spec pos (N.to_nat (size_ v)) (S (N.to_nat (size_ v)))
              (block (items_ v))) as (r' & Hr' & _ & Hslots); [lia..|].
  assert (r' = r) as -> by congruence.
  unfold read_after_shift. rewrite <- Hrx, Hslots.
  repeat case_decide; try done; try lia. f_equal. lia.
Qed.

Lemma Insert_rvalue_inside_spec (pos i : nat) v :
  Inv v -> IsFull v = false -> (i < length (block (items_ v)))%nat ->
  match Insert_rvalue pos (Inside i) v with
  | (Ok it, v') =>
      (pos <= N.to_nat (size_ v))%nat /\ it = pos /\ Inv v' /\
      size_ v' = size_ v + 1 /\ capacity_ v' = capacity_ v
  | (Throw _, _) => False
  | (Fault, _) => (N.to_nat (size_ v) < pos)%nat
  end.
Proof.
  intros Hinv Hfull Hi.
  pose proof (Insert_inside_with std_copy_backward_move true
                std_copy_backward_move_shifts pos i v Hinv Hfull Hi
    : match Insert_rvalue pos (Inside i) v with
      | (Ok it, v') => _
      | (Throw _, _) => _
      | (Fault, _) => _
      end) as Hspec.
  destruct (Insert_rvalue pos (Inside i) v) as [[it|e|] v']; [|done..].
  by destruct Hspec as (? & ? & ? & ? & _ & ?).
Qed.

(** [PushBack] and [Insert] for every argument that stays valid. *)
Lemma PushBack_valid_spec (item : argument T) v :
  Inv v -> stays_valid item v ->
  match PushBack item v with
  | (Ok _, v') =>
      exists x, referent item v = Some x /\
        Inv v' /\ size_ v' = size_ v + 1 /\ elements v' = elements v ++ [x] /\
        capacity_ v' = (if IsFull v then N.max (capacity_ v * 2) 1 else capacity_ v)
  | (Throw e, v') =>
      e = bad_alloc /\ v' = v /\ IsFull v = true /\
      can_allocate (N.max (capacity_ v * 2) 1) = false
  | (Fault, _) => False
  end.
Proof.
  intros Hinv Hvalid. destruct item as [item|i].
  - pose proof (PushBack_spec item v Hinv) as Hspec.
    destruct (PushBack (Outside item) v) as [[[]|e|] v']; [|done..].
    by exists item.
  - destruct Hvalid as [Hroom Hi].
    pose proof (PushBack_inside_spec false i v Hinv Hroom Hi) as Hspec.
    simpl in Hspec.
    destruct (PushBack (Inside i) v) as [[[]|e|] v']; [|done..].
    destruct Hspec as (? & ? & Hx & ?). destruct (Hx eq_refl) as (x & ? & ?).
    exists x. rewrite Hroom. by simpl.
Qed.

Lemma Insert_valid_spec (pos : nat) (value : argument T) v :
  Inv v -> stays_valid value v ->
  match Insert pos value v with
  | (Ok it, v') =>
      (pos <= N.to_nat (size_ v))%nat /\ it = pos /\ Inv v' /\
      size_ v' = size_ v + 1 /\
      (exists x, read_after_shift value pos v = Some x /\
         elements v' = take pos (elements v) ++ x :: drop pos (elements v)) /\
      capacity_ v' = (if IsFull v then N.max (capacity_ v * 2) 1 else capacity_ v)
  | (Throw e, v') =>
      e = bad_alloc /\ v' = v /\ IsFull v = true /\
      can_allocate (N.max (capacity_ v * 2) 1) = false
  | (Fault, _) => (N.to_nat (size_ v) < pos)%nat
  end.
Proof.
  intros Hinv Hvalid. destruct value as [value|i].
  - pose proof (Insert_spec pos value v Hinv) as Hspec.
    destruct (Insert pos (Outside value) v) as [[it|e|] v']; [|done..].
    destruct Hspec as (? & ? & ? & ? & ? & ?).
    do 4 (split; [done|]). split; [by exists value|done].
  - destruct Hvalid as [Hroom Hi].
    pose proof (Insert_inside_spec pos i v Hinv Hroom Hi) as Hspec.
    destruct (Insert pos (Inside i) v) as [[it|e|] v']; [|done..].
    destruct Hspec as (? & ? & ? & ? & ? & ?).
    do 5 (split; [done|]). by rewrite Hroom.
Qed.

(** ** Removing *)

Lemma Erase_spec (pos : nat) v :
  Inv v ->
  match Erase pos v with
  | (Ok it, v') =>
      (pos < N.to_nat (size_ v))%nat /\ it = pos /\ Inv v' /\
      size_ v' = size_ v - 1 /\ capacity_ v' = capacity_ v /\
      elements v' = take pos (elements v) ++ drop (S pos) (elements v)
  | (Throw _, _) => False
  | (Fault, _) => (N.to_nat (size_ v) <= pos)%nat
  end.
Proof.
  intros Hinv. unfold Erase. rewrite bind_run. simpl. rewrite bind_run.
  unfold lift at 1, assert, end', begin.
  pose proof (Inv_bounds v Hinv) as (Hsize & Hcap & Hlen).
  case_bool_decide as Hpos; [|lia].
  rewrite bind_run.
  destruct (std_move_spec (pos + 1) (0 + N.to_nat (size_ v)) pos (block (items_ v)))
    as (r & Hr & Hlenr & Hslots); [lia..|].
  rewrite (on_block_run _ _ r) by done. run.
  rewrite size_t_dec_pos by (unfold PTRDIFF_MAX; lia).
  split; [lia|]. split; [done|]. split.
  { apply Inv_intro; simpl; written; lia. }
  split; [done|]. split; [done|].
  apply list_eq. intros i.
  rewrite lookup_erased by (rewrite length_elements by done; lia).
  rewrite !lookup_elements. simpl. written. rewrite Hslots.
  repeat case_decide; try done; try lia; try (f_equal; lia).
Qed.

Lemma PopBack_spec v :
  Inv v ->
  exists v', PopBack v = (Ok tt, v') /\ Inv v' /\
    items_ v' = items_ v /\ capacity_ v' = capacity_ v /\
    size_ v' = size_ v - 1 /\
    elements v' = take (N.to_nat (size_ v - 1)) (elements v).
Proof.
  intros Hinv. pose proof (Inv_bounds v Hinv) as (Hsize & Hcap & Hlen).
  unfold PopBack, IsEmpty. rewrite bind_run. simpl.
  destruct (N.eqb_spec (size_ v) 0) as [Hzero|Hpos]; simpl.
  - exists v. rewrite ret_run. do 4 (split; [done|]). split; [lia|].
    unfold elements. rewrite Hzero. done.
  - eexists. split; [done|]. simpl.
    rewrite size_t_dec_pos by (unfold PTRDIFF_MAX; lia).
    split; [apply Inv_intro; simpl; lia|]. do 3 (split; [done|]).
    unfold elements. simpl. rewrite take_take. f_equal. lia.
Qed.

Lemma Clear_spec v :
  Inv v ->
  exists v', Clear v = (Ok tt, v') /\ Inv v' /\ items_ v' = items_ v /\
    capacity_ v' = capacity_ v /\ size_ v' = 0.
Proof.
  intros Hinv. pose proof (Inv_bounds v Hinv) as (Hsize & Hcap & Hlen).
  eexists. split; [done|]. simpl. split; [apply Inv_intro; simpl; lia|done].
Qed.

(** ** Access *)

Lemma At_throws index v :
  size_ v <= index -> At index v = (Throw out_of_range, v).
Proof.
  intros Hge. unfold At. rewrite bind_run. simpl.
  by destruct (N.leb_spec (size_ v) index); [|lia].
Qed.

Lemma At_returns index v :
  Inv v -> index < size_ v ->
  exists x, At index v = (Ok x, v) /\ elements v !! N.to_nat index = Some x.
Proof.
  intros Hinv Hlt. unfold At. rewrite bind_run. simpl.
  destruct (N.leb_spec (size_ v) index); [lia|].
  destruct (inv_live v Hinv index Hlt) as [x Hx].
  exists x. unfold lift. rewrite Hx. split; [done|].
  rewrite lookup_elements. by rewrite decide_True by lia.
Qed.

(** ** [Resize] and [Reserve] *)

Lemma Resize_spec new_size v :
  Inv v ->
  match Resize new_size v with
  | (Ok _, v') =>
      Inv v' /\ size_ v' = new_size /\
      capacity_ v' = (if capacity_ v <? new_size
                      then N.max (capacity_ v * 2) new_size else capacity_ v) /\
      (capacity_ v < new_size -> allocated v' = capacity_ v') /\
      (new_size <= capacity_ v -> allocated v' = allocated v) /\
      forall i : nat, elements v' !! i =
        if decide (i < N.to_nat new_size)%nat
        then if decide (i < N.to_nat (size_ v))%nat then elements v !! i
             else Some default_value
        else None
  | (Throw e, v') =>
      e = bad_alloc /\ v' = v /\ capacity_ v < new_size /\
      can_allocate (N.max (capacity_ v * 2) new_size) = false
  | (Fault, _) => False
  end.
Proof.
  intros Hinv. pose proof (Inv_bounds v Hinv) as (Hsize & Hcap & Hlen).
  unfold Resize. rewrite bind_run. simpl. rewrite bind_run.
  destruct (N.ltb_spec (capacity_ v) new_size) as [Hgrow|Hfit].
  - rewrite bind_run. unfold lift at 1. rewrite NewCapacity_spec by done.
    set (c := N.max (capacity_ v * 2) new_size).
    pose proof (SimpleVector_sized_spec c) as Hbuf.
    destruct (N.eqb_spec c 0); [lia|]. simpl in Hbuf.
    destruct (can_allocate c) eqn:Hc; [|by rewrite Hbuf].
    apply can_allocate_bound in Hc. unfold PTRDIFF_MAX in Hc.
    destruct Hbuf as (p & -> & Hblk & Hbool).
    rewrite bind_run. unfold lift.
    destruct (std_move_to_migrated v c p) as (s & r & Hmv & Hlenr & Hslots);
      [done|lia|done|].
    change (begin {| items_ := p; size_ := c; capacity_ := c |}) with 0%nat.
    simpl. rewrite Hmv. run.
    rewrite set_block_Some by (rewrite Hbool; apply N.ltb_lt; lia).
    split; [apply Inv_intro; simpl; lia|]. split; [done|]. split; [done|].
    split; [intros _; unfold allocated; simpl; lia|]. split; [lia|].
    intros i. rewrite !lookup_elements. simpl. rewrite Hslots.
    repeat case_decide; try done; lia.
  - destruct (N.ltb_spec (size_ v) new_size) as [Hmore|Hless].
    + rewrite bind_run. unfold lift, assert.
      destruct (N.leb_spec new_size (capacity_ v)); [|lia].
      unfold begin, end'.
      destruct (std_generate_spec (0 + N.to_nat (size_ v)) (0 + N.to_nat new_size)
                  default_value (block (items_ v)))
        as (r & Hr & Hlenr & Hslots); [lia..|].
      rewrite (on_block_run _ _ r) by done. run.
      split; [apply Inv_intro; simpl; written; lia|]. split; [done|]. split; [done|].
      split; [lia|]. split; [intros _; unfold allocated; simpl; written; lia|].
      intros i. rewrite !lookup_elements. simpl. written. rewrite Hslots.
      repeat case_decide; try done; lia.
    + run. split; [apply Inv_intro; simpl; lia|]. split; [done|]. split; [done|].
      split; [lia|]. split; [done|].
      intros i. rewrite !lookup_elements. simpl.
      repeat case_decide; try done; lia.
Qed.

Lemma Reserve_spec new_capacity v :
  Inv v ->
  match Reserve new_capacity v with
  | (Ok _, v') =>
      Inv v' /\ size_ v' = size_ v /\ elements v' = elements v /\
      if capacity_ v <? new_capacity
      then capacity_ v' = new_capacity /\
           allocated v' = N.max (capacity_ v * 2) new_capacity
      else v' = v
  | (Throw e, v') =>
      e = bad_alloc /\ v' = v /\ capacity_ v < new_capacity /\
      can_allocate (N.max (capacity_ v * 2) new_capacity) = false
  | (Fault, _) => False
  end.
Proof.
  intros Hinv. pose proof (Inv_bounds v Hinv) as (Hsize & Hcap & Hlen).
  unfold Reserve. rewrite bind_run. simpl.
  pose proof (Resize_spec new_capacity v Hinv) as Hresize.
  destruct (N.ltb_spec (capacity_ v) new_capacity) as [Hgrow|Hfit].
  - rewrite bind_run.
    destruct (Resize new_capacity v) as [[[]|e|] v1]; [|done..].
    destruct Hresize as (Hinv1 & Hs1 & Hc1 & Ha1 & _ & He1).
    pose proof (Inv_bounds v1 Hinv1) as (Hsize1 & Hcap1 & Hlen1).
    specialize (Ha1 Hgrow). unfold allocated in Ha1. run.
    split; [apply Inv_intro; simpl; lia|]. split; [done|].
    split; [|split; [done|unfold allocated; simpl; lia]].
    apply list_eq. intros i. specialize (He1 i).
    rewrite !lookup_elements in *. simpl.
    repeat case_decide; try done; lia.
  - by rewrite ret_run.
Qed.

(** ** The other constructors *)

Lemma SimpleVector_default_Inv : Inv (SimpleVector_default (T := T)).
Proof. apply Inv_intro; simpl; lia. Qed.

Lemma SimpleVector_init_spec (init : list T) :
  let n := N.of_nat (length init) in
  if (n =? 0) || can_allocate n
  then exists p, SimpleVector_init init
                 = Ok {| items_ := p; size_ := n; capacity_ := n |} /\
         block p = init /\ ArrayPtr_bool p = (0 <? n)
  else SimpleVector_init init = Throw bad_alloc.
Proof.
  intros n. unfold SimpleVector_init. fold n.
  apply constructed_spec; [lia|].
  intros p Hlen. rewrite bind_run. simpl. unfold begin.
  destruct (std_copy_spec 0 (length init) init 0 (block p))
    as (r & Hr & Hlenr & Hslots); [lia..|].
  rewrite (on_block_run _ _ r) by done. unfold set_items. simpl.
  do 3 f_equal. apply list_eq. intros i. rewrite Hslots. case_decide.
  - f_equal. lia.
  - rewrite !lookup_ge_None_2; [done|lia..].
Qed.

Lemma SimpleVector_reserved_spec capacity_to_reserve :
  if (capacity_to_reserve =? 0) || can_allocate capacity_to_reserve
  then exists p, SimpleVector_reserved capacity_to_reserve
                 = Ok {| items_ := p; size_ := 0; capacity_ := capacity_to_reserve |} /\
         length (block p) = N.to_nat capacity_to_reserve
  else SimpleVector_reserved capacity_to_reserve = Throw bad_alloc.
Proof.
  unfold SimpleVector_reserved.
  pose proof (ArrayPtr_sized_spec capacity_to_reserve) as Hp.
  destruct ((capacity_to_reserve =? 0) || can_allocate capacity_to_reserve);
    [|by rewrite Hp].
  destruct Hp as (p & -> & Hlen & _). by exists p.
Qed.

Lemma SimpleVector_copy_spec other :
  Inv other ->
  if (size_ other =? 0) || can_allocate (size_ other)
  then exists p, SimpleVector_copy other
                 = Ok {| items_ := p; size_ := size_ other; capacity_ := size_ other |} /\
         block p = elements other /\ ArrayPtr_bool p = (0 <? size_ other)
  else SimpleVector_copy other = Throw bad_alloc.
Proof.
  intros Hinv. pose proof (Inv_bounds other Hinv) as (Hsize & Hcap & Hlen).
  apply constructed_spec; [by apply length_elements|].
  intros p Hlenp. rewrite bind_run. simpl. unfold begin, end'.
  destruct (std_copy_spec 0 (0 + N.to_nat (size_ other)) (block (items_ other))
              0 (block p)) as (r & Hr & Hlenr & Hslots); [lia..|].
  rewrite (on_block_run _ _ r) by done. unfold set_items. simpl.
  do 3 f_equal. apply list_eq. intros i. rewrite Hslots, lookup_elements.
  repeat case_decide; try lia.
  - f_equal. lia.
  - apply lookup_ge_None_2. lia.
Qed.

(** A vector fresh from a constructor that allocated [size] slots. *)
Lemma constructed_Inv p (size n : N) :
  length (block p) = N.to_nat n -> size <= n ->
  (n =? 0) || can_allocate n = true ->
  Inv {| items_ := p; size_ := size; capacity_ := n |}.
Proof.
  intros Hlen Hsize Hn. apply Inv_intro; simpl; [done|lia|].
  apply orb_true_iff in Hn as [Hn%N.eqb_eq|Hn%can_allocate_bound];
    unfold PTRDIFF_MAX in *; lia.
Qed.

Lemma SimpleVector_eta v :
  {| items_ := items_ v; size_ := size_ v; capacity_ := capacity_ v |} = v.
Proof. by destruct v. Qed.

Lemma SimpleVector_move_spec other :
  SimpleVector_move other = (other, SimpleVector_default).
Proof. by destruct other. Qed.

Lemma swap_spec this other : swap this other = (other, this).
Proof. by destruct this, other. Qed.

(** ** Comparison *)

Lemma spaceship_spec lhs rhs :
  Inv lhs -> Inv rhs ->
  spaceship lhs rhs = Ok (lexicographic (elements lhs) (elements rhs)).
Proof.
  intros (? & ? & ?)%Inv_bounds (? & ? & ?)%Inv_bounds.
  unfold spaceship, cend, cbegin.
  rewrite std_lexicographical_compare_three_way_spec by lia.
  unfold elements. simpl. by rewrite !Nat.sub_0_r.
Qed.

Lemma lexicographic_equal (l1 l2 : list T) :
  lexicographic l1 l2 = equal <->
  Forall2 (fun x y => compare_three_way x y = equal) l1 l2.
Proof.
  revert l2. induction l1 as [|x l1 IH]; intros [|y l2]; simpl.
  - split; [constructor|done].
  - split; [done|inversion 1].
  - split; [done|inversion 1].
  - destruct (compare_three_way x y) eqn:Hxy.
    + split; [done|]. inversion 1; congruence.
    + rewrite IH. split; [by constructor|]. by inversion 1.
    + split; [done|]. inversion 1; congruence.
Qed.

Lemma lexicographic_prefix (l k : list T) :
  (forall x, compare_three_way x x = equal) ->
  k <> [] -> lexicographic l (l ++ k) = less.
Proof.
  intros Hrefl Hk. induction l as [|x l IH]; simpl.
  - by destruct k.
  - by rewrite Hrefl.
Qed.

Lemma lexicographic_refl (l : list T) :
  (forall x, compare_three_way x x = equal) -> lexicographic l l = equal.
Proof. intros Hrefl. induction l as [|x l IH]; simpl; [done|]. by rewrite Hrefl. Qed.

Lemma lexicographic_turned (l1 l2 : list T) :
  (forall x y, compare_three_way y x = turned (compare_three_way x y)) ->
  lexicographic l2 l1 = turned (lexicographic l1 l2).
Proof.
  intros Hturn. revert l2. induction l1 as [|x l1 IH]; intros [|y l2]; simpl; try done.
  rewrite (Hturn x y). destruct (compare_three_way x y); simpl; [done|apply IH|done].
Qed.

Lemma lexicographic_trans (l1 l2 l3 : list T) :
  strong_order T ->
  lexicographic l1 l2 = less -> lexicographic l2 l3 = less ->
  lexicographic l1 l3 = less.
Proof.
  intros (Hrefl & Hturn & Hequal & Htrans). revert l2 l3.
  induction l1 as [|x l1 IH]; intros [|y l2] [|z l3]; simpl; try done.
  intros H12 H23.
  destruct (compare_three_way x y) eqn:Hxy; try done;
    destruct (compare_three_way y z) eqn:Hyz; try done.
  - by rewrite (Htrans x y z).
  - rewrite (Hturn z x), (Hequal z y x), (Hturn x y), Hxy; [done|].
    by rewrite (Hturn y z), Hyz.
  - by rewrite (Hequal x y z Hxy), Hyz.
  - rewrite (Hequal x y z Hxy), Hyz. by apply (IH l2).
Qed.

(** The other three operators, from the three that test one outcome. *)
Lemma derived_operators lhs rhs :
  op_ne lhs rhs = (b ← op_eq lhs rhs; mret (negb b)) /\
  op_le lhs rhs = (b ← op_gt lhs rhs; mret (negb b)) /\
  op_ge lhs rhs = (b ← op_lt lhs rhs; mret (negb b)).
Proof.
  unfold op_ne, op_eq, op_le, op_gt, op_ge, op_lt.
  by destruct (spaceship lhs rhs) as [[]| |].
Qed.

(** ** Two objects at once *)

Lemma update_eq a v (st : Store T) : update a v st a = v.
Proof. unfold update. by rewrite decide_True. Qed.

Lemma update_ne a b v (st : Store T) : b <> a -> update a v st b = st b.
Proof. intros Hne. unfold update. by rewrite decide_False. Qed.

Lemma swap_at_spec (this other : nat) (st : Store T) :
  swap_at this other st
  = (Ok tt, update other (st this) (update this (st other) st)).
Proof. unfold swap_at. run. by rewrite !SimpleVector_eta. Qed.

Lemma move_assign_spec (this other : nat) (st : Store T) :
  move_assign this other st
  = if decide (this = other) then (Ok tt, st)
    else (Ok tt, update other (st this) (update this (st other) st)).
Proof.
  unfold move_assign. case_bool_decide; case_decide; try done.
  apply swap_at_spec.
Qed.

Lemma copy_assign_spec (this other : nat) (st : Store T) :
  Inv (st other) ->
  match copy_assign this other st with
  | (Ok _, st') =>
      (forall a, a <> this -> st' a = st a) /\
      if decide (other = this) then st' this = st this
      else elements (st' this) = elements (st other) /\
           size_ (st' this) = size_ (st other) /\
           capacity_ (st' this) = size_ (st other) /\
           Inv (st' this)
  | (Throw e, st') =>
      e = bad_alloc /\ st' = st /\ other <> this /\
      can_allocate (size_ (st other)) = false
  | (Fault, _) => False
  end.
Proof.
  intros Hinv. pose proof (Inv_bounds _ Hinv) as (Hsize & Hcap & Hlen).
  unfold copy_assign. case_bool_decide as Hne; case_decide; try done.
  rewrite bind_run. simpl. unfold IsEmpty.
  destruct (N.eqb_spec (size_ (st other)) 0) as [Hempty|Hfull].
  - unfold call. run. split; [intros a Ha; by rewrite update_ne|].
    rewrite update_eq. unfold elements. simpl. rewrite Hempty. simpl.
    do 3 (split; [done|]). apply Inv_intro; simpl; lia.
  - rewrite bind_run. unfold lift.
    pose proof (SimpleVector_copy_spec (st other) Hinv) as Hcopy.
    destruct (N.eqb_spec (size_ (st other)) 0); [done|]. simpl in Hcopy.
    destruct (can_allocate (size_ (st other))) eqn:Hcan; [|by rewrite Hcopy].
    destruct Hcopy as (p & -> & Hblk & Hbool). run.
    split; [intros a Ha; by rewrite update_ne|]. rewrite update_eq.
    unfold elements at 1. simpl. rewrite Hblk.
    rewrite take_ge by (rewrite length_elements by done; lia).
    do 3 (split; [done|]).
    apply constructed_Inv; [|done|by rewrite Hcan, orb_true_r].
    by rewrite Hblk, length_elements.
Qed.
End VectorFacts.

(** * The scenario of the specification, run *)

Example scenario_append :
  (PushBack (Outside 1) SimpleVector_default).2
    = {| items_ := Some [1]; size_ := 1; capacity_ := 1 |} /\
  (PushBack (Outside 2) {| items_ := Some [1]; size_ := 1; capacity_ := 1 |}).2
    = {| items_ := Some [1; 2]; size_ := 2; capacity_ := 2 |} /\
  PushBack (Outside 3) {| items_ := Some [1; 2]; size_ := 2; capacity_ := 2 |}
    = (Ok tt, roomy_123).
Proof. by vm_compute. Qed.

Example scenario_insert :
  Insert 1 (Outside 9) roomy_123
  = (Ok 1%nat, {| items_ := Some [1; 9; 2; 3]; size_ := 4; capacity_ := 4 |}).
Proof. by vm_compute. Qed.

(** [v.Insert(v.begin(), v[2])] on [[1; 2; 3]] with room for four: [v[2]] is
    read after the shift, when slot 2 holds what was [v[1]]. *)
Example scenario_insert_own_element :
  Insert 0 (Inside 2) roomy_123
  = (Ok 0%nat, {| items_ := Some [2; 1; 2; 3]; size_ := 4; capacity_ := 4 |}).
Proof. by vm_compute. Qed.

(** [v.PushBack(v[0])] on a full vector reads [v[0]] in the deleted block. *)
Example scenario_append_own_element :
  (PushBack (Inside 0) full_123).1 = Fault /\
  PushBack (Inside 0) roomy_123
  = (Ok tt, {| items_ := Some [1; 2; 3; 1]; size_ := 4; capacity_ := 4 |}).
Proof. by vm_compute. Qed.

Example scenario_erase :
  Erase 2 {| items_ := Some [1; 9; 2; 3]; size_ := 4; capacity_ := 4 |}
  = (Ok 2%nat, {| items_ := Some [1; 9; 3; 3]; size_ := 3; capacity_ := 4 |}).
Proof. by vm_compute. Qed.

Example scenario_at :
  At 10 {| items_ := Some [1; 9; 3; 3]; size_ := 3; capacity_ := 4 |}
  = (Throw out_of_range,
     {| items_ := Some [1; 9; 3; 3]; size_ := 3; capacity_ := 4 |}).
Proof. by vm_compute. Qed.

Example scenario_resize :
  Resize 5 {| items_ := Some [1; 9; 3; 3]; size_ := 3; capacity_ := 4 |}
  = (Ok tt,
     {| items_ := Some [1; 9; 3; 0; 0; 0; 0; 0]; size_ := 5; capacity_ := 8 |}).
Proof. by vm_compute. Qed.

Example reserve_reports_what_was_asked :
  Reserve 4 full_123
  = (Ok tt, {| items_ := Some [1; 2; 3; 0; 0; 0]; size_ := 3; capacity_ := 4 |}).
Proof. by vm_compute. Qed.

Example reserve_beyond_the_store :
  Reserve 2000 full_123 = (Throw bad_alloc, full_123).
Proof. by vm_compute. Qed.

Example erase_at_end_faults : (Erase 3 full_123).1 = Fault.
Proof. by vm_compute. Qed.

Example compare_prefix :
  spaceship full_12 full_123 = Ok less /\ op_lt full_12 full_123 = Ok true /\
  op_eq roomy_123 full_123 = Ok true.
Proof. by vm_compute. Qed.

(** * The properties of the specification *)
Section Properties.
Context `{Element T, FreeStore T}.
Implicit Types (v A B this other : SimpleVector T).

(** C1. For two well-formed vectors [A] and [B], [A == B] returns, and it
    returns [true] exactly when [A] and [B] have the same size and every pair
    of corresponding elements compares [equal]; that is exactly when
    [A <=> B] is [equal].  Where [equal] elements are the same element, it is
    exactly when the two element sequences are the same. *)
Theorem equality_is_elementwise A B :
  Inv A -> Inv B ->
  exists c eq,
    spaceship A B = Ok c /\ op_eq A B = Ok eq /\
    (eq = true <->
       size_ A = size_ B /\
       forall (i : nat) x y,
         elements A !! i = Some x -> elements B !! i = Some y ->
         compare_three_way x y = equal) /\
    (eq = true <-> c = equal) /\
    ((forall x y, compare_three_way x y = equal <-> x = y) ->
     (eq = true <-> elements A = elements B)).
Proof.
  intros HA HB. unfold op_eq. rewrite (spaceship_spec A B HA HB). simpl.
  eexists _, _. split; [done|]. split; [done|].
  rewrite bool_decide_eq_true, lexicographic_equal.
  pose proof (length_elements A HA) as HlenA.
  pose proof (length_elements B HB) as HlenB.
  split; [|split; [done|]].
  - rewrite Forall2_same_length_lookup, HlenA, HlenB. split.
    + intros [Hlen Hall]. split; [lia|done].
    + intros [Hsize Hall]. split; [by rewrite Hsize|done].
  - intros Hstrong. clear HlenA HlenB. rewrite list_eq_Forall2. split.
    + induction 1; constructor; try done; by apply Hstrong.
    + induction 1; constructor; try done; by apply Hstrong.
Qed.

(** C2. For two well-formed vectors [A] and [B], the operators [<], [==] and
    [>] all return, and exactly one of them returns [true].  If the elements
    of [A] are a strict prefix of those of [B] then [A < B]; here an element
    must compare [equal] to itself.  For an element type with a strong order
    the comparison is a total order of the vectors: [A == A]; [B > A],
    [B < A] and [B == A] return what [A < B], [A > B] and [A == B] return;
    and [A < B] with [B < C] gives [A < C]. *)
Theorem exactly_one_of_lt_eq_gt A B :
  Inv A -> Inv B ->
  exists lt eq gt,
    op_lt A B = Ok lt /\ op_eq A B = Ok eq /\ op_gt A B = Ok gt /\
    ((lt = true /\ eq = false /\ gt = false) \/
     (lt = false /\ eq = true /\ gt = false) \/
     (lt = false /\ eq = false /\ gt = true)) /\
    ((forall x, compare_three_way x x = equal) ->
     forall tail, tail <> [] -> elements B = elements A ++ tail -> lt = true) /\
    (strong_order T ->
     op_eq A A = Ok true /\
     op_gt B A = Ok lt /\ op_lt B A = Ok gt /\ op_eq B A = Ok eq /\
     forall C, Inv C -> lt = true -> op_lt B C = Ok true -> op_lt A C = Ok true).
Proof.
  intros HA HB. unfold op_lt, op_eq, op_gt.
  rewrite (spaceship_spec A B HA HB), (spaceship_spec B A HB HA),
    (spaceship_spec A A HA HA). simpl.
  eexists _, _, _. do 3 (split; [done|]). split; [|split].
  - destruct (lexicographic (elements A) (elements B)); naive_solver.
  - intros Hrefl tail Htail ->. apply bool_decide_eq_true.
    by apply lexicographic_prefix.
  - intros Horder. pose proof Horder as (Hrefl & Hturn & _).
    rewrite (lexicographic_refl _ Hrefl).
    rewrite (lexicographic_turned (elements A) (elements B) Hturn).
    split; [done|].
    split; [by destruct (lexicographic (elements A) (elements B))|].
    split; [by destruct (lexicographic (elements A) (elements B))|].
    split; [by destruct (lexicographic (elements A) (elements B))|].
    intros C HC HAB.
    rewrite (spaceship_spec B C HB HC), (spaceship_spec A C HA HC). simpl.
    intros [= HBC]. f_equal.
    apply bool_decide_eq_true in HAB. apply bool_decide_eq_true in HBC.
    apply bool_decide_eq_true.
    by apply (lexicographic_trans _ (elements B)).
Qed.

(** C3, as the code has it.  On a well-formed vector and for a position
    [pos] in [0 .. size], [Insert(pos, value)] returns the position of the new
    element, [Erase] at that position succeeds, and the vector then has its
    original size and elements.  For the overload that takes [const Type&],
    [value] is an object outside the vector, or an element of a vector that
    is not full; for the overload that takes an rvalue it is an object
    outside the vector.  When [Insert] cannot allocate it throws
    [std::bad_alloc] and the vector is as it was. *)
Theorem insert_then_erase_restores (pos : nat) v :
  Inv v -> (pos <= N.to_nat (size_ v))%nat ->
  let restored (r : outcome nat * SimpleVector T) :=
    match r with
    | (Ok it, v1) =>
        it = pos /\
        exists v2, Erase it v1 = (Ok it, v2) /\
          size_ v2 = size_ v /\ elements v2 = elements v
    | (Throw e, v1) =>
        e = bad_alloc /\ v1 = v /\ IsFull v = true /\
        can_allocate (N.max (capacity_ v * 2) 1) = false
    | (Fault, _) => False
    end in
  (forall value, stays_valid value v -> restored (Insert pos value v)) /\
  (forall value, restored (Insert_rvalue pos (Outside value) v)).
Proof.
  intros Hinv Hpos.
  assert (forall x (it : nat) v1,
    it = pos -> Inv v1 -> size_ v1 = size_ v + 1 ->
    elements v1 = take pos (elements v) ++ x :: drop pos (elements v) ->
    it = pos /\
    exists v2, Erase it v1 = (Ok it, v2) /\
      size_ v2 = size_ v /\ elements v2 = elements v) as Hstep.
  { intros x it v1 -> Hinv1 Hs1 He1. split; [done|].
    pose proof (Erase_spec pos v1 Hinv1) as Herase.
    destruct (Erase pos v1) as [[it|e|] v2]; [|done|lia].
    destruct Herase as (_ & -> & _ & Hs2 & _ & He2).
    exists v2. split; [done|]. split; [lia|].
    rewrite He2, He1.
    pose proof (length_elements v Hinv) as Hlen.
    rewrite take_app_length' by (rewrite length_take; lia).
    rewrite drop_app_ge by (rewrite length_take; lia).
    rewrite length_take.
    replace (S pos - pos `min` length (elements v))%nat with 1%nat by lia.
    simpl. rewrite drop_0. apply take_drop. }
  simpl. split.
  - intros [value|i] Hvalid.
    + pose proof (Insert_spec pos value v Hinv) as Hspec.
      destruct (Insert pos (Outside value) v) as [[it|e|] v1]; [|done|lia].
      destruct Hspec as (_ & ? & ? & ? & ? & _). by apply (Hstep value).
    + destruct Hvalid as [Hroom Hi].
      pose proof (Insert_inside_spec pos i v Hinv Hroom Hi) as Hspec.
      destruct (Insert pos (Inside i) v) as [[it|e|] v1]; [|done|lia].
      destruct Hspec as (_ & ? & ? & ? & (x & _ & ?) & _). by apply (Hstep x).
  - intros value.
    pose proof (Insert_rvalue_spec pos value v Hinv) as Hspec.
    destruct (Insert_rvalue pos (Outside value) v) as [[it|e|] v1]; [|done|lia].
    destruct Hspec as (_ & ? & ? & ? & ? & _). by apply (Hstep value).
Qed.

(** C4. On a well-formed vector, [Resize(n)] leaves the size at [n]; if [n]
    was greater than the old size, the elements from the old size up to [n]
    are [Type{}]; if [n] was at most the old size, the elements are the first
    [n] of the old ones.  When [Resize] cannot allocate it throws
    [std::bad_alloc] and the vector is as it was. *)
Theorem resize_contract n v :
  Inv v ->
  match Resize n v with
  | (Ok _, v') =>
      size_ v' = n /\
      (size_ v < n ->
       forall i, size_ v <= i < n -> elements v' !! N.to_nat i = Some default_value) /\
      (n <= size_ v -> elements v' = take (N.to_nat n) (elements v))
  | (Throw e, v') =>
      e = bad_alloc /\ v' = v /\ capacity_ v < n /\
      can_allocate (N.max (capacity_ v * 2) n) = false
  | (Fault, _) => False
  end.
Proof.
  intros Hinv. pose proof (Resize_spec n v Hinv) as Hspec.
  destruct (Resize n v) as [[[]|e|] v']; [|done..].
  destruct Hspec as (Hinv' & Hsize & _ & _ & _ & Hel).
  split; [done|]. split.
  - intros Hgrow i Hi. rewrite Hel. by rewrite decide_True, decide_False by lia.
  - intros Hshrink. apply list_eq. intros i. rewrite Hel, lookup_take.
    repeat case_decide; try done; lia.
Qed.

(** C5. On a well-formed vector, [Reserve(n)] with [n <= capacity] changes
    nothing at all; with [n > capacity] it leaves the capacity at exactly [n]
    and the size and the elements as they were.  When [Reserve] cannot
    allocate it throws [std::bad_alloc] and the vector is as it was. *)
Theorem reserve_contract n v :
  Inv v ->
  match Reserve n v with
  | (Ok _, v') =>
      (n <= capacity_ v -> v' = v) /\
      (capacity_ v < n ->
       capacity_ v' = n /\ size_ v' = size_ v /\ elements v' = elements v)
  | (Throw e, v') =>
      e = bad_alloc /\ v' = v /\ capacity_ v < n /\
      can_allocate (N.max (capacity_ v * 2) n) = false
  | (Fault, _) => False
  end.
Proof.
  intros Hinv. pose proof (Reserve_spec n v Hinv) as Hspec.
  destruct (Reserve n v) as [[[]|e|] v']; [|done..].
  destruct Hspec as (_ & Hsize & Hel & Hcap). split.
  - intros Hle. by destruct (N.ltb_spec (capacity_ v) n); [lia|].
  - intros Hlt. destruct (N.ltb_spec (capacity_ v) n); [|lia]. by destruct Hcap.
Qed.

(** C6, as the code has it.  When a vector grows, both overloads of
    [PushBack] and both overloads of [Insert] on a full vector, called with
    an object outside the vector, leave the capacity at
    [max(2 * capacity, 1)]; called with an element of the full vector they do
    not return: the reference is read after the block it points into was
    deleted, unless the allocation failed before.  [Resize(n)] with
    [n > capacity] leaves the capacity at [max(2 * capacity, n)].
    [Reserve(n)] with [n > capacity] leaves the capacity at exactly [n],
    whatever [2 * capacity] is; the block it allocated has
    [max(2 * capacity, n)] slots.  Each of them grows unless the allocation
    fails. *)
Theorem growth_policy v :
  Inv v ->
  (IsFull v = true ->
   (forall item,
      grows_to v 1 (N.max (capacity_ v * 2) 1) (PushBack (Outside item) v) /\
      grows_to v 1 (N.max (capacity_ v * 2) 1) (PushBack_rvalue (Outside item) v)) /\
   (forall (pos : nat) value, (pos <= N.to_nat (size_ v))%nat ->
      grows_to v 1 (N.max (capacity_ v * 2) 1) (Insert pos (Outside value) v) /\
      grows_to v 1 (N.max (capacity_ v * 2) 1) (Insert_rvalue pos (Outside value) v)) /\
   (forall (pos i : nat), (pos <= N.to_nat (size_ v))%nat ->
      (PushBack (Inside i) v).1
        = (if can_allocate (N.max (capacity_ v * 2) 1) then Fault else Throw bad_alloc) /\
      (PushBack_rvalue (Inside i) v).1
        = (if can_allocate (N.max (capacity_ v * 2) 1) then Fault else Throw bad_alloc) /\
      (Insert pos (Inside i) v).1
        = (if can_allocate (N.max (capacity_ v * 2) 1) then Fault else Throw bad_alloc) /\
      (Insert_rvalue pos (Inside i) v).1
        = (if can_allocate (N.max (capacity_ v * 2) 1) then Fault else Throw bad_alloc))) /\
  (forall n, capacity_ v < n ->
     grows_to v n (N.max (capacity_ v * 2) n) (Resize n v) /\
     grows_to v n n (Reserve n v) /\
     match Reserve n v with
     | (Ok _, v') => allocated v' = N.max (capacity_ v * 2) n
     | _ => True
     end).
Proof.
  intros Hinv. unfold grows_to. split.
  - intros Hfull. split; [|split].
    + intros item. rewrite PushBack_rvalue_outside.
      pose proof (PushBack_spec item v Hinv) as Hspec.
      destruct (PushBack (Outside item) v) as [[[]|e|] v'];
        [|by destruct Hspec as (? & ? & _ & ?)|done].
      destruct Hspec as (_ & _ & _ & ->). by rewrite Hfull.
    + intros pos value Hpos.
      pose proof (Insert_spec pos value v Hinv) as Hspec.
      pose proof (Insert_rvalue_spec pos value v Hinv) as Hspec'.
      split.
      * destruct (Insert pos (Outside value) v) as [[it|e|] v'];
          [|by destruct Hspec as (? & ? & _ & ?)|lia].
        destruct Hspec as (_ & _ & _ & _ & _ & ->). by rewrite Hfull.
      * destruct (Insert_rvalue pos (Outside value) v) as [[it|e|] v'];
          [|by destruct Hspec' as (? & ? & _ & ?)|lia].
        destruct Hspec' as (_ & _ & _ & _ & _ & ->). by rewrite Hfull.
    + intros pos i Hpos. by apply dangling_argument_spec.
  - intros n Hn.
    pose proof (Resize_spec n v Hinv) as Hresize.
    pose proof (Reserve_spec n v Hinv) as Hreserve.
    destruct (N.ltb_spec (capacity_ v) n); [|lia].
    split; [|split].
    + destruct (Resize n v) as [[[]|e|] v'];
        [|by destruct Hresize as (? & ? & _ & ?)|done].
      by destruct Hresize as (_ & _ & -> & _).
    + destruct (Reserve n v) as [[[]|e|] v'];
        [|by destruct Hreserve as (? & ? & _ & ?)|done].
      by destruct Hreserve as (_ & _ & _ & -> & _).
    + destruct (Reserve n v) as [[[]|e|] v']; [|done..].
      by destruct Hreserve as (_ & _ & _ & _ & ->).
Qed.

(** C7, as the code has it.  The source of a move construction is left with
    size 0, capacity 0 and a null pointer, and the new vector has all the
    source had.  Move assignment between two different objects swaps them:
    the source is left with the state the target had before, and no other
    object changes.  Move assignment of an object to itself changes
    nothing. *)
Theorem moved_from_state :
  (forall other,
     SimpleVector_move other
     = (other, {| items_ := nullptr; size_ := 0; capacity_ := 0 |})) /\
  (forall (this other : nat) (st : Store T),
     this <> other ->
     exists st', move_assign this other st = (Ok tt, st') /\
       st' other = st this /\ st' this = st other /\
       forall a, a <> this -> a <> other -> st' a = st a) /\
  (forall (this : nat) (st : Store T),
     move_assign this this st = (Ok tt, st)).
Proof.
  split; [apply SimpleVector_move_spec|]. split.
  - intros this other st Hne. rewrite move_assign_spec, decide_False by done.
    eexists. split; [done|]. split; [apply update_eq|]. split.
    + by rewrite update_ne, update_eq.
    + intros a Ha Ha'. by rewrite !update_ne.
  - intros this st. by rewrite move_assign_spec, decide_True.
Qed.

(** C8. [At(i)] throws [std::out_of_range] exactly when [i >= size]; it
    throws nothing else; and whatever it does, it leaves the vector as it
    was.  On a well-formed vector and for [i < size] it returns the element
    at index [i]. *)
Theorem At_contract index v :
  ((exists v', At index v = (Throw out_of_range, v')) <-> size_ v <= index) /\
  (forall e v', At index v = (Throw e, v') -> e = out_of_range) /\
  (forall o v', At index v = (o, v') -> v' = v) /\
  (Inv v -> index < size_ v ->
   exists x, At index v = (Ok x, v) /\ elements v !! N.to_nat index = Some x).
Proof.
  assert (forall o v', At index v = (o, v') ->
            v' = v /\ (forall e, o = Throw e -> e = out_of_range /\ size_ v <= index))
    as Hany.
  { intros o v'. unfold At. rewrite bind_run. simpl.
    destruct (N.leb_spec (size_ v) index) as [Hge|Hlt].
    - unfold throw. intros [= <- <-]. split; [done|]. by intros e [= <-].
    - unfold lift. intros [= <- <-]. split; [done|].
      intros e. by destruct (ArrayPtr_index (items_ v) index). }
  split; [split|split; [|split]].
  - intros [v' Hthrow]. destruct (Hany _ _ Hthrow) as [_ He].
    by apply (He out_of_range).
  - intros Hge. exists v. by apply At_throws.
  - intros e v' Hthrow. destruct (Hany _ _ Hthrow) as [_ He]. by apply (He e).
  - intros o v' Hat. by apply (Hany _ _ Hat).
  - apply At_returns.
Qed.

(** C9, as the code has it.  Every constructor yields a well-formed vector
    (or throws [std::bad_alloc]), and both overloads of [PushBack], both
    overloads of [Insert] (at a position in [0 .. size]), [Erase] (at a
    position below [size]), [PopBack], [Clear], [Resize], [Reserve], [swap]
    and both assignments leave every vector they touch well formed, whether
    they return or throw; none of them faults.  For [PushBack] and [Insert]
    the argument is an object outside the vector, or an element of a vector
    that is not full.  A well-formed vector has [size <= capacity], and each
    of its slots below [size] holds an element. *)
Theorem invariant_is_kept :
  (establishes (Ok SimpleVector_default) /\
   (forall n, establishes (SimpleVector_sized n)) /\
   (forall n value, establishes (SimpleVector_filled n value)) /\
   (forall init, establishes (SimpleVector_init init)) /\
   (forall n, establishes (SimpleVector_reserved n)) /\
   (forall other, Inv other -> establishes (SimpleVector_copy other)) /\
   (forall other, Inv other ->
      Inv (SimpleVector_move other).1 /\ Inv (SimpleVector_move other).2)) /\
  (forall v, Inv v ->
     (forall item, stays_valid item v ->
        preserves (PushBack item) v /\ preserves (PushBack_rvalue item) v) /\
     (forall (pos : nat) value, (pos <= N.to_nat (size_ v))%nat ->
        stays_valid value v ->
        preserves (Insert pos value) v /\ preserves (Insert_rvalue pos value) v) /\
     (forall pos : nat, (pos < N.to_nat (size_ v))%nat -> preserves (Erase pos) v) /\
     preserves PopBack v /\
     preserves Clear v /\
     (forall n, preserves (Resize n) v) /\
     (forall n, preserves (Reserve n) v)) /\
  ((forall this other, Inv this -> Inv other ->
      Inv (swap this other).1 /\ Inv (swap this other).2) /\
   (forall (st : Store T) (this other : nat), (forall a, Inv (st a)) ->
      preserves_all (swap_at this other) st /\
      preserves_all (copy_assign this other) st /\
      preserves_all (move_assign this other) st)) /\
  (forall v, Inv v ->
     size_ v <= capacity_ v /\
     forall i, i < size_ v -> exists x, ArrayPtr_index (items_ v) i = Some x).
Proof.
  split; [|split; [|split]].
  - split; [apply SimpleVector_default_Inv|]. split; [|split; [|split; [|split; [|split]]]].
    + intros n. pose proof (SimpleVector_sized_spec n) as Hspec.
      destruct ((n =? 0) || can_allocate n) eqn:Hn; [|by rewrite Hspec].
      destruct Hspec as (p & -> & Hblk & _). simpl.
      apply constructed_Inv; [by rewrite Hblk, length_replicate|done..].
    + intros n value. pose proof (SimpleVector_filled_spec n value) as Hspec.
      destruct ((n =? 0) || can_allocate n) eqn:Hn; [|by rewrite Hspec].
      destruct Hspec as (p & -> & Hblk & _). simpl.
      apply constructed_Inv; [by rewrite Hblk, length_replicate|done..].
    + intros init. pose proof (SimpleVector_init_spec init) as Hspec. simpl in Hspec.
      destruct ((N.of_nat (length init) =? 0) || can_allocate (N.of_nat (length init)))
        eqn:Hn; [|by rewrite Hspec].
      destruct Hspec as (p & -> & Hblk & _). simpl.
      apply constructed_Inv; [rewrite Hblk; lia|done..].
    + intros n. pose proof (SimpleVector_reserved_spec n) as Hspec.
      destruct ((n =? 0) || can_allocate n) eqn:Hn; [|by rewrite Hspec].
      destruct Hspec as (p & -> & Hlen). simpl.
      apply constructed_Inv; [done|lia|done].
    + intros other Hinv. pose proof (SimpleVector_copy_spec other Hinv) as Hspec.
      destruct ((size_ other =? 0) || can_allocate (size_ other)) eqn:Hn;
        [|by rewrite Hspec].
      destruct Hspec as (p & -> & Hblk & _). simpl.
      apply constructed_Inv; [by rewrite Hblk, length_elements|done..].
    + intros other Hinv. rewrite SimpleVector_move_spec. simpl.
      split; [done|apply SimpleVector_default_Inv].
  - intros v Hinv. unfold preserves.
    split; [|split; [|split; [|split; [|split; [|split]]]]].
    + intros [item|i] Hvalid.
      * rewrite PushBack_rvalue_outside.
        pose proof (PushBack_spec item v Hinv) as Hspec.
        destruct (PushBack (Outside item) v) as [[[]|e|] v'];
          [|by destruct Hspec as (_ & -> & _)|done].
        by destruct Hspec.
      * destruct Hvalid as [Hroom Hi].
        pose proof (PushBack_inside_spec false i v Hinv Hroom Hi) as Hspec.
        pose proof (PushBack_inside_spec true i v Hinv Hroom Hi) as Hspec'.
        simpl in Hspec, Hspec'. split.
        -- destruct (PushBack (Inside i) v) as [[[]|e|] v']; [|done..].
           by destruct Hspec.
        -- destruct (PushBack_rvalue (Inside i) v) as [[[]|e|] v']; [|done..].
           by destruct Hspec'.
    + intros pos [value|i] Hpos Hvalid.
      * pose proof (Insert_spec pos value v Hinv) as Hspec.
        pose proof (Insert_rvalue_spec pos value v Hinv) as Hspec'.
        split.
        -- destruct (Insert pos (Outside value) v) as [[it|e|] v'];
             [|by destruct Hspec as (_ & -> & _)|lia].
           by destruct Hspec as (_ & _ & ? & _).
        -- destruct (Insert_rvalue pos (Outside value) v) as [[it|e|] v'];
             [|by destruct Hspec' as (_ & -> & _)|lia].
           by destruct Hspec' as (_ & _ & ? & _).
      * destruct Hvalid as [Hroom Hi].
        pose proof (Insert_inside_spec pos i v Hinv Hroom Hi) as Hspec.
        pose proof (Insert_rvalue_inside_spec pos i v Hinv Hroom Hi) as Hspec'.
        split.
        -- destruct (Insert pos (Inside i) v) as [[it|e|] v']; [|done|lia].
           by destruct Hspec as (_ & _ & ? & _).
        -- destruct (Insert_rvalue pos (Inside i) v) as [[it|e|] v']; [|done|lia].
           by destruct Hspec' as (_ & _ & ? & _).
    + intros pos Hpos. pose proof (Erase_spec pos v Hinv) as Hspec.
      destruct (Erase pos v) as [[it|e|] v']; [|done|lia].
      by destruct Hspec as (_ & _ & ? & _).
    + by destruct (PopBack_spec v Hinv) as (v' & -> & ? & _).
    + by destruct (Clear_spec v Hinv) as (v' & -> & ? & _).
    + intros n. pose proof (Resize_spec n v Hinv) as Hspec.
      destruct (Resize n v) as [[[]|e|] v']; [|by destruct Hspec as (_ & -> & _)|done].
      by destruct Hspec.
    + intros n. pose proof (Reserve_spec n v Hinv) as Hspec.
      destruct (Reserve n v) as [[[]|e|] v']; [|by destruct Hspec as (_ & -> & _)|done].
      by destruct Hspec.
  - split.
    + intros this other Hthis Hother. by rewrite swap_spec.
    + intros st this other Hst. unfold preserves_all.
      assert (forall a, Inv (update other (st this) (update this (st other) st) a))
        as Hswapped.
      { intros a. unfold update. by repeat case_decide. }
      split; [by rewrite swap_at_spec|]. split.
      * pose proof (copy_assign_spec this other st (Hst other)) as Hspec.
        destruct (copy_assign this other st) as [[[]|e|] st'];
          [|by destruct Hspec as (_ & -> & _)|done].
        destruct Hspec as [Hframe Hthis]. intros a.
        destruct (decide (a = this)) as [->|Hne]; [|by rewrite Hframe].
        case_decide; [by rewrite Hthis|]. by destruct Hthis as (_ & _ & _ & ?).
      * rewrite move_assign_spec. by case_decide.
  - intros v Hinv. split; [apply Hinv|]. apply (inv_live v Hinv).
Qed.

(** C10. On a well-formed vector, [Erase] at a position below [size] and
    [PopBack] both return, leave the capacity as it was, and leave every
    element before the erased position (for [PopBack]: before the last
    element) as it was. *)
Theorem removal_frame v :
  Inv v ->
  (forall pos : nat, (pos < N.to_nat (size_ v))%nat ->
     match Erase pos v with
     | (Ok _, v') =>
         capacity_ v' = capacity_ v /\
         forall i : nat, (i < pos)%nat -> elements v' !! i = elements v !! i
     | _ => False
     end) /\
  match PopBack v with
  | (Ok _, v') =>
      capacity_ v' = capacity_ v /\
      forall i : nat, (S i < N.to_nat (size_ v))%nat ->
        elements v' !! i = elements v !! i
  | _ => False
  end.
Proof.
  intros Hinv. pose proof (length_elements v Hinv) as Hlen. split.
  - intros pos Hpos. pose proof (Erase_spec pos v Hinv) as Hspec.
    destruct (Erase pos v) as [[it|e|] v']; [|done|lia].
    destruct Hspec as (_ & _ & _ & _ & Hcap & Hel). split; [done|].
    intros i Hi. rewrite Hel, lookup_erased by lia. by rewrite decide_True.
  - destruct (PopBack_spec v Hinv) as (v' & -> & _ & _ & Hcap & _ & Hel).
    split; [done|]. intros i Hi. rewrite Hel. apply lookup_take_lt. lia.
Qed.
End Properties.

(** * The properties on concrete vectors *)

Lemma roomy_123_Inv : Inv roomy_123.
Proof. apply Inv_intro; simpl; lia. Qed.

Lemma full_123_Inv : Inv full_123.
Proof. apply Inv_intro; simpl; lia. Qed.

Lemma full_12_Inv : Inv full_12.
Proof. apply Inv_intro; simpl; lia. Qed.

Lemma two_vectors_Inv a : Inv (two_vectors a).
Proof.
  destruct a as [|[|a]]; simpl;
    [apply full_12_Inv|apply full_123_Inv|apply SimpleVector_default_Inv].
Qed.

Lemma N_compare_turned (x y : N) :
  compare_three_way y x = turned (compare_three_way x y).
Proof. simpl. rewrite (N.compare_antisym x y). by destruct (x ?= y). Qed.

Lemma N_compare_refl (x : N) : compare_three_way x x = equal.
Proof. simpl. by rewrite N.compare_refl. Qed.

Lemma N_strong_order : strong_order N.
Proof.
  split; [exact N_compare_refl|]. split; [exact N_compare_turned|]. split.
  - intros x y z. simpl. destruct (N.compare_spec x y); [by subst|done..].
  - intros x y z. simpl.
    destruct (N.compare_spec x y); [done| |done].
    destruct (N.compare_spec y z); [done| |done].
    intros _ _. destruct (N.compare_spec x z); [lia|done|lia].
Qed.

Lemma equality_is_elementwise_witness :
  Inv roomy_123 /\ Inv full_123 /\
  exists c eq,
    spaceship roomy_123 full_123 = Ok c /\ op_eq roomy_123 full_123 = Ok eq /\
    (eq = true <->
       size_ roomy_123 = size_ full_123 /\
       forall (i : nat) x y,
         elements roomy_123 !! i = Some x -> elements full_123 !! i = Some y ->
         compare_three_way x y = equal) /\
    (eq = true <-> c = equal) /\
    ((forall x y, compare_three_way x y = equal <-> x = y) ->
     (eq = true <-> elements roomy_123 = elements full_123)).
Proof.
  split; [exact roomy_123_Inv|]. split; [exact full_123_Inv|].
  apply (equality_is_elementwise roomy_123 full_123);
    [exact roomy_123_Inv|exact full_123_Inv].
Defined.

Lemma exactly_one_of_lt_eq_gt_witness :
  Inv full_12 /\ Inv full_123 /\ strong_order N /\
  exists lt eq gt,
    op_lt full_12 full_123 = Ok lt /\ op_eq full_12 full_123 = Ok eq /\
    op_gt full_12 full_123 = Ok gt /\
    ((lt = true /\ eq = false /\ gt = false) \/
     (lt = false /\ eq = true /\ gt = false) \/
     (lt = false /\ eq = false /\ gt = true)) /\
    (forall tail, tail <> [] -> elements full_123 = elements full_12 ++ tail ->
     lt = true) /\
    op_eq full_12 full_12 = Ok true /\
    op_gt full_123 full_12 = Ok lt /\ op_lt full_123 full_12 = Ok gt /\
    op_eq full_123 full_12 = Ok eq /\
    forall C, Inv C -> lt = true -> op_lt full_123 C = Ok true ->
      op_lt full_12 C = Ok true.
Proof.
  split; [exact full_12_Inv|]. split; [exact full_123_Inv|].
  split; [exact N_strong_order|].
  destruct (exactly_one_of_lt_eq_gt full_12 full_123 full_12_Inv full_123_Inv)
    as (lt & eq & gt & Hlt & Heq & Hgt & Hone & Hprefix & Horder).
  exists lt, eq, gt.
  split; [exact Hlt|]. split; [exact Heq|]. split; [exact Hgt|].
  split; [exact Hone|]. split; [exact (Hprefix N_compare_refl)|].
  exact (Horder N_strong_order).
Defined.

(** C3 fails for an element of a full vector: [[1; 2; 3]] with capacity 3
    is well formed and 0 is a position in it, but [Insert(begin(), v[0])]
    reads [v[0]] after [IncCapacity] deleted the block it was in, with either
    overload. *)
Lemma insert_of_own_element_dangles :
  Inv full_123 /\ (0 <= N.to_nat (size_ full_123))%nat /\
  (Insert 0 (Inside 0) full_123).1 = Fault /\
  (Insert_rvalue 0 (Inside 0) full_123).1 = Fault.
Proof.
  split; [exact full_123_Inv|]. split; [simpl; lia|]. by vm_compute.
Qed.

Lemma insert_then_erase_restores_witness :
  Inv roomy_123 /\ (1 <= N.to_nat (size_ roomy_123))%nat /\
  let restored (r : outcome nat * SimpleVector N) :=
    match r with
    | (Ok it, v1) =>
        it = 1%nat /\
        exists v2, Erase it v1 = (Ok it, v2) /\
          size_ v2 = size_ roomy_123 /\ elements v2 = elements roomy_123
    | (Throw e, v1) =>
        e = bad_alloc /\ v1 = roomy_123 /\ IsFull roomy_123 = true /\
        can_allocate (N.max (capacity_ roomy_123 * 2) 1) = false
    | (Fault, _) => False
    end in
  (forall value, stays_valid value roomy_123 -> restored (Insert 1 value roomy_123)) /\
  (forall value, restored (Insert_rvalue 1 (Outside value) roomy_123)).
Proof.
  assert (1 <= N.to_nat (size_ roomy_123))%nat as Hpos by (simpl; lia).
  split; [exact roomy_123_Inv|]. split; [exact Hpos|].
  exact (insert_then_erase_restores 1 roomy_123 roomy_123_Inv Hpos).
Defined.

Lemma resize_contract_witness :
  Inv roomy_123 /\
  match Resize 5 roomy_123 with
  | (Ok _, v') =>
      size_ v' = 5 /\
      (size_ roomy_123 < 5 ->
       forall i, size_ roomy_123 <= i < 5 ->
         elements v' !! N.to_nat i = Some default_value) /\
      (5 <= size_ roomy_123 -> elements v' = take (N.to_nat 5) (elements roomy_123))
  | (Throw e, v') =>
      e = bad_alloc /\ v' = roomy_123 /\ capacity_ roomy_123 < 5 /\
      can_allocate (N.max (capacity_ roomy_123 * 2) 5) = false
  | (Fault, _) => False
  end.
Proof.
  split; [exact roomy_123_Inv|].
  apply (resize_contract 5 roomy_123). exact roomy_123_Inv.
Defined.

Lemma reserve_contract_witness :
  Inv full_123 /\
  match Reserve 4 full_123 with
  | (Ok _, v') =>
      (4 <= capacity_ full_123 -> v' = full_123) /\
      (capacity_ full_123 < 4 ->
       capacity_ v' = 4 /\ size_ v' = size_ full_123 /\
       elements v' = elements full_123)
  | (Throw e, v') =>
      e = bad_alloc /\ v' = full_123 /\ capacity_ full_123 < 4 /\
      can_allocate (N.max (capacity_ full_123 * 2) 4) = false
  | (Fault, _) => False
  end.
Proof.
  split; [exact full_123_Inv|].
  apply (reserve_contract 4 full_123). exact full_123_Inv.
Defined.

(** C6 fails for [Reserve]: [[1; 2; 3]] with capacity 3 is well formed,
    [Reserve(4)] has to grow it and returns, and the capacity is then 4, not
    [max(2 * 3, 4) = 6]. *)
Lemma reserve_does_not_double :
  Inv full_123 /\ capacity_ full_123 < 4 /\
  exists v', Reserve 4 full_123 = (Ok tt, v') /\
    capacity_ v' = 4 /\
    capacity_ v' <> N.max (capacity_ full_123 * 2) 4.
Proof.
  split; [exact full_123_Inv|]. split; [simpl; lia|].
  eexists. split; [vm_compute; reflexivity|]. simpl. split; [done|lia].
Qed.

Lemma growth_policy_witness :
  Inv full_123 /\
  (IsFull full_123 = true ->
   (forall item,
      grows_to full_123 1 (N.max (capacity_ full_123 * 2) 1)
        (PushBack (Outside item) full_123) /\
      grows_to full_123 1 (N.max (capacity_ full_123 * 2) 1)
        (PushBack_rvalue (Outside item) full_123)) /\
   (forall (pos : nat) value, (pos <= N.to_nat (size_ full_123))%nat ->
      grows_to full_123 1 (N.max (capacity_ full_123 * 2) 1)
        (Insert pos (Outside value) full_123) /\
      grows_to full_123 1 (N.max (capacity_ full_123 * 2) 1)
        (Insert_rvalue pos (Outside value) full_123)) /\
   (forall (pos i : nat), (pos <= N.to_nat (size_ full_123))%nat ->
      (PushBack (Inside i) full_123).1
        = (if can_allocate (N.max (capacity_ full_123 * 2) 1)
           then Fault else Throw bad_alloc) /\
      (PushBack_rvalue (Inside i) full_123).1
        = (if can_allocate (N.max (capacity_ full_123 * 2) 1)
           then Fault else Throw bad_alloc) /\
      (Insert pos (Inside i) full_123).1
        = (if can_allocate (N.max (capacity_ full_123 * 2) 1)
           then Fault else Throw bad_alloc) /\
      (Insert_rvalue pos (Inside i) full_123).1
        = (if can_allocate (N.max (capacity_ full_123 * 2) 1)
           then Fault else Throw bad_alloc))) /\
  (forall n, capacity_ full_123 < n ->
     grows_to full_123 n (N.max (capacity_ full_123 * 2) n) (Resize n full_123) /\
     grows_to full_123 n n (Reserve n full_123) /\
     match Reserve n full_123 with
     | (Ok _, v') => allocated v' = N.max (capacity_ full_123 * 2) n
     | _ => True
     end).
Proof.
  split; [exact full_123_Inv|].
  apply (growth_policy full_123). exact full_123_Inv.
Defined.

(** C7 fails for move assignment: with [[1; 2]] at address 0 and [[1; 2; 3]]
    at address 1, both well formed, moving the vector at 1 into the one at 0
    leaves the source, at 1, with size 2, capacity 2 and the block of the
    old target. *)
Lemma move_assign_leaves_source_full :
  (forall a, Inv (two_vectors a)) /\
  (move_assign 0 1 two_vectors).1 = Ok tt /\
  let source := (move_assign 0 1 two_vectors).2 1%nat in
  size_ source = 2 /\ capacity_ source = 2 /\ items_ source = Some [1; 2] /\
  ~ (size_ source = 0 /\ capacity_ source = 0 /\ items_ source = nullptr).
Proof.
  split; [exact two_vectors_Inv|]. vm_compute.
  repeat split. by intros (? & _).
Qed.

Lemma moved_from_state_witness :
  exists st', move_assign 0 1 two_vectors = (Ok tt, st') /\
    st' 1%nat = two_vectors 0%nat /\ st' 0%nat = two_vectors 1%nat /\
    forall a, a <> 0%nat -> a <> 1%nat -> st' a = two_vectors a.
Proof.
  apply (proj1 (proj2 (moved_from_state (T := N))) 0%nat 1%nat two_vectors). lia.
Defined.

Lemma At_contract_witness :
  ((exists v', At 10 roomy_123 = (Throw out_of_range, v')) <-> size_ roomy_123 <= 10) /\
  (forall e v', At 10 roomy_123 = (Throw e, v') -> e = out_of_range) /\
  (forall o v', At 10 roomy_123 = (o, v') -> v' = roomy_123) /\
  (Inv roomy_123 -> 10 < size_ roomy_123 ->
   exists x, At 10 roomy_123 = (Ok x, roomy_123) /\
     elements roomy_123 !! N.to_nat 10 = Some x).
Proof. apply (At_contract 10 roomy_123). Defined.

(** C9 fails for an element of a full vector: [[1; 2; 3]] with capacity 3
    is well formed, but [PushBack(v[0])] reads [v[0]] after [IncCapacity]
    deleted the block it was in. *)
Lemma push_back_of_own_element_dangles :
  Inv full_123 /\ 0 < size_ full_123 /\
  (PushBack (Inside 0) full_123).1 = Fault /\
  ~ preserves (PushBack (Inside 0)) full_123.
Proof.
  split; [exact full_123_Inv|]. split; [simpl; lia|].
  split; [by vm_compute|]. intros Hkept. unfold preserves in Hkept.
  by vm_compute in Hkept.
Qed.

Lemma invariant_is_kept_witness :
  preserves (PushBack (Outside 4)) full_123 /\
  preserves (PushBack (Inside 0)) roomy_123 /\
  preserves (Insert 1 (Outside 9)) full_123 /\
  preserves (Insert_rvalue 1 (Inside 2)) roomy_123 /\
  preserves (Erase 1) full_123 /\
  preserves_all (move_assign 0 1) two_vectors.
Proof.
  destruct (invariant_is_kept (T := N)) as (_ & Hmembers & (_ & Hstore) & _).
  destruct (Hmembers full_123 full_123_Inv) as (Hpush & Hinsert & Herase & _).
  destruct (Hmembers roomy_123 roomy_123_Inv) as (Hpush' & Hinsert' & _).
  assert (1 <= N.to_nat (size_ full_123))%nat as Hpos by (simpl; lia).
  assert (1 < N.to_nat (size_ full_123))%nat as Hpos' by (simpl; lia).
  assert (1 <= N.to_nat (size_ roomy_123))%nat as Hpos'' by (simpl; lia).
  assert (stays_valid (Inside 0) roomy_123) as Hin0 by (split; [done|simpl; lia]).
  assert (stays_valid (Inside 2) roomy_123) as Hin2 by (split; [done|simpl; lia]).
  destruct (Hpush (Outside 4) I) as [Hp _].
  destruct (Hpush' (Inside 0) Hin0) as [Hp' _].
  destruct (Hinsert 1%nat (Outside 9) Hpos I) as [Hins _].
  destruct (Hinsert' 1%nat (Inside 2) Hpos'' Hin2) as [_ Hins'].
  destruct (Hstore two_vectors 0%nat 1%nat two_vectors_Inv) as (_ & _ & Hmove).
  split; [exact Hp|]. split; [exact Hp'|]. split; [exact Hins|].
  split; [exact Hins'|]. split; [exact (Herase 1%nat Hpos')|exact Hmove].
Defined.

Lemma removal_frame_witness :
  Inv full_123 /\
  (forall pos : nat, (pos < N.to_nat (size_ full_123))%nat ->
     match Erase pos full_123 with
     | (Ok _, v') =>
         capacity_ v' = capacity_ full_123 /\
         forall i : nat, (i < pos)%nat -> elements v' !! i = elements full_123 !! i
     | _ => False
     end) /\
  match PopBack full_123 with
  | (Ok _, v') =>
      capacity_ v' = capacity_ full_123 /\
      forall i : nat, (S i < N.to_nat (size_ full_123))%nat ->
        elements v' !! i = elements full_123 !! i
  | _ => False
  end.
Proof.
  split; [exact full_123_Inv|].
  apply (removal_frame full_123). exact full_123_Inv.
Defined.

(** * More of the code's behaviour *)
Section MoreFacts.
Context `{Element T, FreeStore T}.
Implicit Types (v this other : SimpleVector T) (p q : ArrayPtr T) (blk : list T).

(** Step through the binds of a computation. *)
Ltac steps :=
  repeat (first [ rewrite bind_run | rewrite ret_run
                | progress unfold put, get, lift, throw, access ]; simpl).

Lemma set_block_twice p blk blk' : set_block (set_block p blk) blk' = set_block p blk'.
Proof. by destruct p. Qed.

Lemma set_block_same p : set_block p (block p) = p.
Proof. by destruct p. Qed.

Lemma elements_whole p (n : N) :
  length (block p) = N.to_nat n ->
  elements {| items_ := p; size_ := n; capacity_ := n |} = block p.
Proof. intros Hlen. unfold elements. simpl. apply take_ge. lia. Qed.

Lemma allocating_outcome (size : N) :
  (size =? 0) || can_allocate size = false -> 0 < size /\ can_allocate size = false.
Proof.
  intros [Hz Hc]%orb_false_iff. split; [|done]. apply N.eqb_neq in Hz. lia.
Qed.

(** X1. [ArrayPtr(size)] never allocates for [size = 0]: it is then null,
    whatever the free store can do.  For [size > 0] it owns a block of
    exactly [size] slots, or throws [std::bad_alloc] when the store has no
    room. *)
Theorem ArrayPtr_sized_owns size :
  match ArrayPtr_sized size with
  | Ok p =>
      (ArrayPtr_bool p = true <-> 0 < size) /\
      length (block p) = N.to_nat size /\
      (0 < size -> can_allocate size = true)
  | Throw e => e = bad_alloc /\ 0 < size /\ can_allocate size = false
  | Fault => False
  end.
Proof.
  pose proof (ArrayPtr_sized_spec size) as Hspec.
  destruct ((size =? 0) || can_allocate size) eqn:Hcan.
  - destruct Hspec as (p & -> & Hlen & Hbool). rewrite Hbool.
    split; [apply N.ltb_lt|]. split; [done|]. intros Hpos.
    apply orb_true_iff in Hcan as [Hz%N.eqb_eq|Hc]; [lia|done].
  - rewrite Hspec. split; [done|]. by apply allocating_outcome.
Qed.

(** X2. An [ArrayPtr] that was moved from or released is null, and the
    receiver has the block; so is one that was move-assigned from to another
    object, and nothing else changes, while the move-assignment of an object
    to itself changes nothing at all.  On a null pointer [operator*] and
    [operator->] throw [std::logic_error]; they throw exactly when
    [operator bool] is [false], and [operator->] otherwise returns the raw
    pointer. *)
Theorem null_pointer_is_guarded p (this other : nat) (st : nat -> ArrayPtr T) :
  (ArrayPtr_move p).1 = p /\
  ArrayPtr_from_raw (Release p).1 = p /\
  (this <> other ->
   ArrayPtr_move_assign this other st this = st other /\
   ArrayPtr_move_assign this other st other = nullptr /\
   forall a, a <> this -> a <> other ->
     ArrayPtr_move_assign this other st a = st a) /\
  ArrayPtr_move_assign this this st = st /\
  (forall left_over,
     left_over = (ArrayPtr_move p).2 \/ left_over = (Release p).2 \/
     (this <> other /\ left_over = ArrayPtr_move_assign this other st other) ->
     ArrayPtr_bool left_over = false /\
     ArrayPtr_deref left_over = Throw logic_error /\
     ArrayPtr_arrow left_over = Throw logic_error) /\
  (ArrayPtr_deref p = Throw logic_error <-> ArrayPtr_bool p = false) /\
  (ArrayPtr_arrow p = Throw logic_error <-> ArrayPtr_bool p = false) /\
  (ArrayPtr_bool p = true -> ArrayPtr_arrow p = Ok (GetRawPtr p)).
Proof.
  assert (this <> other ->
    ArrayPtr_move_assign this other st this = st other /\
    ArrayPtr_move_assign this other st other = nullptr /\
    forall a, a <> this -> a <> other ->
      ArrayPtr_move_assign this other st a = st a) as Hassign.
  { intros Hne. unfold ArrayPtr_move_assign.
    rewrite bool_decide_eq_true_2 by done.
    split; [by rewrite decide_True|].
    split; [by rewrite decide_False, decide_True by done|].
    intros a Ha Ha'. by rewrite !decide_False by done. }
  do 2 (split; [done|]). split; [done|]. split.
  { unfold ArrayPtr_move_assign. rewrite bool_decide_eq_false_2; [done|]. by intros Hne. }
  split.
  - intros left_over [-> | [-> | [Hne ->]]]; [by simpl..|].
    destruct (Hassign Hne) as (_ & -> & _). by simpl.
  - destruct p as [blk|]; simpl; [|done].
    split; [|done]. split; [|done]. by destruct (blk !! 0%nat).
Qed.

(** X3. [SimpleVector(size, value)] yields [size] copies of [value] with
    [capacity = size]; [SimpleVector(size)] is the same with [Type{}].  For
    [size = 0] nothing is allocated and the vector owns no memory; otherwise
    the only failure is [std::bad_alloc], when the store has no room for
    [size] elements. *)
Theorem sized_constructors size value :
  match SimpleVector_filled size value with
  | Ok v =>
      size_ v = size /\ capacity_ v = size /\
      elements v = replicate (N.to_nat size) value /\
      (ArrayPtr_bool (items_ v) = true <-> 0 < size) /\ Inv v
  | Throw e => e = bad_alloc /\ 0 < size /\ can_allocate size = false
  | Fault => False
  end /\
  SimpleVector_sized size = SimpleVector_filled size default_value.
Proof.
  split; [|done]. pose proof (SimpleVector_filled_spec size value) as Hspec.
  destruct ((size =? 0) || can_allocate size) eqn:Hcan.
  - destruct Hspec as (p & -> & Hblk & Hbool). simpl.
    assert (length (block p) = N.to_nat size) as Hlen
      by by rewrite Hblk, length_replicate.
    do 2 (split; [done|]). split; [by rewrite elements_whole|].
    rewrite Hbool. split; [apply N.ltb_lt|]. by apply constructed_Inv.
  - rewrite Hspec. split; [done|]. by apply allocating_outcome.
Qed.

(** X4. [SimpleVector(std::initializer_list)] yields exactly the elements
    of the list, in order, with [size = capacity =] the length of the list;
    the empty list gives a vector that owns no memory; the only failure is
    [std::bad_alloc]. *)
Theorem initializer_list_constructor (init : list T) :
  match SimpleVector_init init with
  | Ok v =>
      elements v = init /\ size_ v = N.of_nat (length init) /\
      capacity_ v = N.of_nat (length init) /\
      (init = [] -> items_ v = nullptr) /\ Inv v
  | Throw e =>
      e = bad_alloc /\ init <> [] /\ can_allocate (N.of_nat (length init)) = false
  | Fault => False
  end.
Proof.
  pose proof (SimpleVector_init_spec init) as Hspec. simpl in Hspec.
  destruct ((N.of_nat (length init) =? 0) || can_allocate (N.of_nat (length init)))
    eqn:Hcan.
  - destruct Hspec as (p & -> & Hblk & Hbool). simpl.
    assert (length (block p) = N.to_nat (N.of_nat (length init))) as Hlen
      by (rewrite Hblk; lia).
    split; [by rewrite elements_whole|]. do 2 (split; [done|]). split.
    + intros ->. simpl in Hbool. by destruct p.
    + by apply constructed_Inv.
  - rewrite Hspec. split; [done|].
    destruct (allocating_outcome _ Hcan) as [Hpos Hno]. split; [|done].
    intros ->. simpl in Hpos. lia.
Qed.

(** With room for them, appending never allocates. *)
Lemma PushBack_each_room (items : list T) v :
  Inv v -> size_ v + N.of_nat (length items) <= capacity_ v ->
  exists v', PushBack_each items v = (Ok tt, v') /\ Inv v' /\
    elements v' = elements v ++ items /\ capacity_ v' = capacity_ v /\
    size_ v' = size_ v + N.of_nat (length items).
Proof.
  revert v. induction items as [|item rest IH]; intros v Hinv Hroom; simpl.
  - exists v. rewrite ret_run, app_nil_r. do 4 (split; [done|]). lia.
  - rewrite bind_run. pose proof (PushBack_spec item v Hinv) as Hpush.
    assert (IsFull v = false) as Hnotfull.
    { unfold IsFull. apply N.eqb_neq. simpl in Hroom. lia. }
    rewrite Hnotfull in Hpush.
    destruct (PushBack (Outside item) v) as [[[]|e|] v1]; [|by destruct Hpush as (_ & _ & ? & _)|done].
    destruct Hpush as (Hinv1 & Hs1 & He1 & Hc1).
    destruct (IH v1 Hinv1) as (v' & -> & Hinv' & He' & Hc' & Hs').
    { simpl in Hroom. lia. }
    exists v'. do 2 (split; [done|]). split; [by rewrite He', He1, <- app_assoc|].
    split; [congruence|]. simpl. lia.
Qed.

(** X5. [SimpleVector(Reserve(n))] yields an empty vector of capacity [n],
    or throws [std::bad_alloc]; the first [n] elements appended to it go into
    the reserved block, with no allocation and the capacity still [n]. *)
Theorem reserving_constructor n :
  match SimpleVector_of_proxy (Reserve_proxy n) with
  | Ok v =>
      size_ v = 0 /\ capacity_ v = n /\ elements v = [] /\ IsEmpty v = true /\
      Inv v /\
      forall items : list T, N.of_nat (length items) <= n ->
        exists v', PushBack_each items v = (Ok tt, v') /\
          elements v' = items /\ capacity_ v' = n
  | Throw e => e = bad_alloc /\ 0 < n /\ can_allocate n = false
  | Fault => False
  end.
Proof.
  unfold SimpleVector_of_proxy, Reserve_proxy. simpl.
  pose proof (SimpleVector_reserved_spec n) as Hspec.
  destruct ((n =? 0) || can_allocate n) eqn:Hcan.
  - destruct Hspec as (p & -> & Hlen).
    assert (Inv {| items_ := p; size_ := 0; capacity_ := n |}) as Hinv
      by (apply constructed_Inv; [done|lia|done]).
    do 4 (split; [done|]). split; [done|]. intros items Hitems.
    destruct (PushBack_each_room items _ Hinv) as (v' & -> & _ & He & Hc & _);
      [simpl; lia|].
    by exists v'.
  - rewrite Hspec. split; [done|]. by apply allocating_outcome.
Qed.

(** X6. After [Reserve(n)] on a well-formed vector, appending items up to a
    total size of [n] never allocates: every [PushBack] returns, the capacity
    stays what [Reserve] left, and the elements are the old ones followed by
    the items. *)
Theorem reserve_then_append n (items : list T) v :
  Inv v -> size_ v + N.of_nat (length items) <= n ->
  match Reserve n v with
  | (Ok _, v1) =>
      exists v', PushBack_each items v1 = (Ok tt, v') /\
        elements v' = elements v ++ items /\ capacity_ v' = capacity_ v1
  | (Throw e, v1) => e = bad_alloc /\ v1 = v
  | (Fault, _) => False
  end.
Proof.
  intros Hinv Hroom. pose proof (Reserve_spec n v Hinv) as Hspec.
  destruct (Reserve n v) as [[[]|e|] v1]; [|by destruct Hspec as (? & ? & _)|done].
  destruct Hspec as (Hinv1 & Hs1 & He1 & Hc1).
  destruct (PushBack_each_room items v1 Hinv1) as (v' & -> & _ & He & Hc & _).
  - destruct (N.ltb_spec (capacity_ v) n); [destruct Hc1 as [-> _]; lia|].
    subst v1. lia.
  - exists v'. split; [done|]. by rewrite He, He1.
Qed.

(** X7. The copy constructor, on a well-formed vector, yields the same
    elements with [capacity = size] (the spare capacity of the source is not
    copied), or throws [std::bad_alloc]; a copy of an empty vector owns no
    memory; where elements compare [equal] to themselves the copy [==] the
    source. *)
Theorem copy_constructor other :
  Inv other ->
  match SimpleVector_copy other with
  | Ok v =>
      elements v = elements other /\ size_ v = size_ other /\
      capacity_ v = size_ other /\ (size_ other = 0 -> items_ v = nullptr) /\
      Inv v /\
      ((forall x, compare_three_way x x = equal) -> op_eq v other = Ok true)
  | Throw e => e = bad_alloc /\ 0 < size_ other /\ can_allocate (size_ other) = false
  | Fault => False
  end.
Proof.
  intros Hinv. pose proof (SimpleVector_copy_spec other Hinv) as Hspec.
  destruct ((size_ other =? 0) || can_allocate (size_ other)) eqn:Hcan.
  - destruct Hspec as (p & -> & Hblk & Hbool). simpl.
    assert (length (block p) = N.to_nat (size_ other)) as Hlen
      by by rewrite Hblk, length_elements.
    assert (Inv {| items_ := p; size_ := size_ other; capacity_ := size_ other |})
      as Hinv' by by apply constructed_Inv.
    assert (elements {| items_ := p; size_ := size_ other; capacity_ := size_ other |}
            = elements other) as Hel by by rewrite elements_whole.
    do 3 (split; [done|]). split; [|split; [done|]].
    + intros Hzero. rewrite Hzero in Hbool. simpl in Hbool. by destruct p.
    + intros Hrefl. unfold op_eq. rewrite (spaceship_spec _ _ Hinv' Hinv), Hel.
      simpl. by rewrite lexicographic_refl.
  - rewrite Hspec. split; [done|]. by apply allocating_outcome.
Qed.

(** X8. [PushBack(item)] on a well-formed vector, for an object outside
    the vector or an element of a vector that is not full, appends: the
    elements are the old ones followed by what [item] referred to, [At(old
    size)] returns it, and a vector that was not full keeps its capacity and
    needs no allocation.  The only failure is [std::bad_alloc] on a full
    vector, which leaves it as it was.  [PushBack(Type&&)] of an object
    outside the vector does the same to the vector. *)
Theorem PushBack_appends (item : argument T) v :
  Inv v -> stays_valid item v ->
  (forall x, PushBack_rvalue (Outside x) v = PushBack (Outside x) v) /\
  match PushBack item v with
  | (Ok _, v') =>
      exists x, referent item v = Some x /\
        elements v' = elements v ++ [x] /\ size_ v' = size_ v + 1 /\
        At (size_ v) v' = (Ok x, v') /\
        (IsFull v = false -> capacity_ v' = capacity_ v)
  | (Throw e, v') => e = bad_alloc /\ v' = v /\ IsFull v = true
  | (Fault, _) => False
  end.
Proof.
  intros Hinv Hvalid. split; [intros x; apply PushBack_rvalue_outside|].
  pose proof (PushBack_valid_spec item v Hinv Hvalid) as Hspec.
  destruct (PushBack item v) as [[[]|e|] v'];
    [|by destruct Hspec as (? & ? & ? & _)|done].
  destruct Hspec as (x & Hx & Hinv' & Hs & He & Hc). exists x.
  do 3 (split; [done|]). split; [|intros Hnf; by rewrite Hnf in Hc].
  destruct (At_returns (size_ v) v' Hinv') as (y & -> & Hy); [lia|].
  rewrite He, lookup_app_r in Hy by (rewrite length_elements by done; lia).
  rewrite length_elements, Nat.sub_diag in Hy by done. simpl in Hy. congruence.
Qed.

(** X9. On a well-formed vector, [PushBack(item)], for an object outside
    the vector or an element of a vector that is not full, followed by
    [PopBack] gives back the size and the elements it had (the capacity may
    have grown). *)
Theorem PushBack_then_PopBack (item : argument T) v :
  Inv v -> stays_valid item v ->
  match PushBack item v with
  | (Ok _, v1) =>
      exists v2, PopBack v1 = (Ok tt, v2) /\
        size_ v2 = size_ v /\ elements v2 = elements v /\
        capacity_ v <= capacity_ v2
  | (Throw e, v1) => e = bad_alloc /\ v1 = v
  | (Fault, _) => False
  end.
Proof.
  intros Hinv Hvalid. pose proof (PushBack_valid_spec item v Hinv Hvalid) as Hspec.
  destruct (PushBack item v) as [[[]|e|] v1];
    [|by destruct Hspec as (? & ? & _)|done].
  destruct Hspec as (x & _ & Hinv1 & Hs & He & Hc).
  destruct (PopBack_spec v1 Hinv1) as (v2 & -> & _ & _ & Hc2 & Hs2 & He2).
  exists v2. split; [done|]. split; [lia|]. split.
  - rewrite He2, He, Hs. replace (N.to_nat (size_ v + 1 - 1)) with (N.to_nat (size_ v)) by lia.
    apply take_app_length'. by rewrite length_elements.
  - rewrite Hc2, Hc. destruct (IsFull v); lia.
Qed.

(** X10. [Insert(pos, value)] on a well-formed vector, for an object
    outside the vector or an element of a vector that is not full, faults
    exactly when [pos] is beyond [end()].  Otherwise it returns [pos], the
    elements before [pos] stay, the rest follow the new element, and the new
    element (as [At] shows) is what [value] refers to once the rest has moved
    up: for a reference to a slot in [pos + 1 .. size] that is the element
    that was one slot below.  The only failure is [std::bad_alloc] on a full
    vector, which leaves it as it was. *)
Theorem Insert_places (pos : nat) (value : argument T) v :
  Inv v -> stays_valid value v ->
  match Insert pos value v with
  | (Ok it, v') =>
      (pos <= N.to_nat (size_ v))%nat /\ it = pos /\ size_ v' = size_ v + 1 /\
      exists x, read_after_shift value pos v = Some x /\
        elements v' = take pos (elements v) ++ x :: drop pos (elements v) /\
        At (N.of_nat it) v' = (Ok x, v')
  | (Throw e, v') => e = bad_alloc /\ v' = v /\ IsFull v = true
  | (Fault, _) => (N.to_nat (size_ v) < pos)%nat
  end.
Proof.
  intros Hinv Hvalid. pose proof (Insert_valid_spec pos value v Hinv Hvalid) as Hspec.
  pose proof (length_elements v Hinv) as Hlen.
  destruct (Insert pos value v) as [[it|e|] v']; [| |done].
  - destruct Hspec as (Hpos & -> & Hinv' & Hs & (x & Hx & He) & _).
    do 3 (split; [done|]). exists x. do 2 (split; [done|]).
    destruct (At_returns (N.of_nat pos) v' Hinv') as (y & -> & Hy); [lia|].
    rewrite He, Nat2N.id, lookup_inserted in Hy by lia.
    rewrite decide_False, decide_True in Hy by lia. congruence.
  - by destruct Hspec as (-> & -> & Hfull & _).
Qed.

(** X11. Called with an object outside the vector, the two overloads of
    [Insert] do the same to a well-formed vector: same outcome, and the same
    block, size and capacity afterwards. *)
Theorem Insert_overloads_agree (pos : nat) value v :
  Inv v -> Insert_rvalue pos (Outside value) v = Insert pos (Outside value) v.
Proof.
  intros Hinv. unfold Insert_rvalue, Insert.
  rewrite !(bind_run get). simpl. rewrite !(bind_run (lift _)).
  unfold lift, assert, end', cbegin, begin.
  case_bool_decide as Hpos; [|done].
  rewrite !(bind_run (if IsFull v then IncCapacity else mret tt)).
  pose proof (make_room_spec v Hinv) as Hroom.
  destruct ((if IsFull v then IncCapacity else mret tt) v) as [[[]|e|] v1];
    [|done..].
  destruct Hroom as (Hinv1 & Hs1 & _ & Hlt & _).
  pose proof (Inv_bounds v1 Hinv1) as (Hsize & Hcap & Hlen).
  pose proof (Inv_bounds v Hinv) as (Hsize0 & Hcap0 & Hlen0).
  steps. rewrite size_t_inc_small by (unfold PTRDIFF_MAX; lia).
  unfold begin, end'. simpl.
  destruct (std_copy_backward_spec (pos - 0)%nat (N.to_nat (size_ v1 + 1) - 1)%nat
              (N.to_nat (size_ v1 + 1)) (block (items_ v1)))
    as (rc & Hrc & Hlenc & Hc); [lia..|].
  destruct (std_copy_backward_move_spec (pos - 0)%nat (N.to_nat (size_ v1 + 1) - 1)%nat
              (N.to_nat (size_ v1 + 1)) (block (items_ v1)))
    as (rm & Hrm & Hlenm & Hm); [lia..|].
  rewrite (on_block_run (std_copy_backward_move _ _ _) _ rm),
    (on_block_run (std_copy_backward _ _ _) _ rc) by done.
  rewrite !bind_run, !ret_run, !bind_run.
  rewrite (on_block_run _ _ (<[(pos - 0)%nat := value]> rm)),
    (on_block_run _ _ (<[(pos - 0)%nat := value]> rc))
    by (simpl; rewrite block_set_block by done; apply store_Some; lia).
  rewrite !bind_run, !ret_run. simpl. rewrite !set_block_twice.
  do 3 f_equal. apply list_eq. intros i.
  rewrite !list_lookup_insert, Hc, Hm, Hlenc, Hlenm.
  repeat case_decide; try done; lia.
Qed.

(** X12. On a well-formed vector, [Insert(end(), item)] of an object
    outside the vector is [PushBack(item)]: the same outcome and the same
    vector afterwards, with [end()] returned as the position. *)
Theorem Insert_at_end_is_PushBack item v :
  Inv v ->
  Insert (end' v) (Outside item) v =
  match PushBack (Outside item) v with
  | (Ok _, v') => (Ok (end' v), v')
  | (Throw e, v') => (Throw e, v')
  | (Fault, v') => (Fault, v')
  end.
Proof.
  intros Hinv. unfold Insert, PushBack.
  rewrite !(bind_run get). simpl. rewrite (bind_run (lift _)).
  unfold lift at 1, assert, end', cbegin, begin.
  case_bool_decide as Hpos; [|lia].
  rewrite !(bind_run (if IsFull v then IncCapacity else mret tt)).
  pose proof (make_room_spec v Hinv) as Hroom.
  destruct ((if IsFull v then IncCapacity else mret tt) v) as [[[]|e|] v1];
    [|done..].
  destruct Hroom as (Hinv1 & Hs1 & _ & Hlt & _).
  pose proof (Inv_bounds v1 Hinv1) as (Hsize & Hcap & Hlen).
  steps. rewrite size_t_inc_small by (unfold PTRDIFF_MAX; lia).
  unfold begin, end'. simpl.
  rewrite (on_block_run _ _ (block (items_ v1))).
  2:{ unfold std_copy_backward. simpl.
      by replace (N.to_nat (size_ v1 + 1) - 1 - (N.to_nat (size_ v) - 0))%nat
        with 0%nat by lia. }
  rewrite set_block_same, bind_run, ret_run, bind_run.
  replace (N.to_nat (size_ v) - 0)%nat with (N.to_nat (size_ v1)) by lia.
  rewrite store_Some by lia.
  rewrite (on_block_run _ _ (<[N.to_nat (size_ v1) := item]> (block (items_ v1))))
    by (simpl; apply store_Some; lia).
  rewrite ret_run. simpl. do 2 f_equal. lia.
Qed.

Lemma Erase_out_of_range (pos : nat) v :
  (N.to_nat (size_ v) <= pos)%nat -> Erase pos v = (Fault, v).
Proof.
  intros Hpos. unfold Erase. rewrite bind_run. simpl. rewrite bind_run.
  unfold lift, assert, end', begin. by case_bool_decide; [lia|].
Qed.

(** X13. [Erase(pos)] on a well-formed vector, for [pos] before [end()],
    returns [pos], takes out exactly the element at [pos] and keeps the order
    of the others, so that the returned position holds the element that
    followed the erased one; it never throws.  For [pos] at or beyond [end()]
    (on an empty vector: for every [pos]) it faults, the vector untouched. *)
Theorem Erase_removes (pos : nat) v :
  Inv v ->
  match Erase pos v with
  | (Ok it, v') =>
      (pos < N.to_nat (size_ v))%nat /\ it = pos /\ size_ v' = size_ v - 1 /\
      elements v' = take pos (elements v) ++ drop (S pos) (elements v) /\
      elements v' !! it = elements v !! S pos
  | (Throw _, _) => False
  | (Fault, v') => (N.to_nat (size_ v) <= pos)%nat /\ v' = v
  end.
Proof.
  intros Hinv. pose proof (Erase_spec pos v Hinv) as Hspec.
  pose proof (length_elements v Hinv) as Hlen.
  destruct (Erase pos v) as [[it|e|] v'] eqn:Herase; [|done|].
  - destruct Hspec as (Hpos & -> & _ & Hs & _ & He).
    do 4 (split; [done|]). rewrite He, lookup_erased by lia.
    by rewrite decide_False by lia.
  - split; [done|]. rewrite Erase_out_of_range in Herase by done. congruence.
Qed.

(** X14. [PopBack] never throws.  On an empty vector it changes nothing; on
    a well-formed vector that is not empty it is [Erase] of the last
    element: the same vector afterwards. *)
Theorem PopBack_is_Erase_of_last v :
  (IsEmpty v = true -> PopBack v = (Ok tt, v)) /\
  (Inv v -> IsEmpty v = false ->
   exists v', PopBack v = (Ok tt, v') /\
     Erase (end' v - 1) v = (Ok (end' v - 1)%nat, v') /\
     elements v' = removelast (elements v)).
Proof.
  split.
  - intros Hempty. unfold PopBack. rewrite bind_run. simpl. by rewrite Hempty.
  - intros Hinv Hne. pose proof (Inv_bounds v Hinv) as (Hsize & Hcap & Hlen).
    assert (0 < size_ v) as Hpos by (unfold IsEmpty in Hne; apply N.eqb_neq in Hne; lia).
    eexists. unfold PopBack. rewrite bind_run. simpl. rewrite Hne. simpl.
    split; [done|]. split.
    + unfold Erase. rewrite bind_run. simpl. rewrite bind_run.
      unfold lift at 1, assert, end', begin. case_bool_decide; [|lia].
      rewrite bind_run. rewrite (on_block_run _ _ (block (items_ v))).
      2:{ unfold std_move.
          by replace (0 + N.to_nat (size_ v) - (0 + N.to_nat (size_ v) - 1 + 1))%nat
            with 0%nat by lia. }
      rewrite set_block_same. steps. unfold set_items. simpl.
      by rewrite SimpleVector_eta.
    + rewrite size_t_dec_pos by (unfold PTRDIFF_MAX; lia).
      unfold elements. simpl. rewrite removelast_firstn_len.
      rewrite take_take, length_take. f_equal. lia.
Qed.

(** X15. [Clear] never throws and only sets the size to 0: the block and
    the capacity stay.  A well-formed vector with capacity left can then take
    a [PushBack] of an object outside it without any allocation. *)
Theorem Clear_keeps_storage v :
  exists v', Clear v = (Ok tt, v') /\
    size_ v' = 0 /\ capacity_ v' = capacity_ v /\ items_ v' = items_ v /\
    elements v' = [] /\ IsEmpty v' = true /\
    (Inv v -> 0 < capacity_ v ->
     forall item, exists v2, PushBack (Outside item) v' = (Ok tt, v2) /\
       elements v2 = [item] /\ capacity_ v2 = capacity_ v).
Proof.
  eexists. split; [done|]. simpl. do 5 (split; [done|]).
  intros Hinv Hcap item.
  destruct (Clear_spec v Hinv) as (v' & [= <-] & Hinv' & _).
  pose proof (PushBack_spec item _ Hinv') as Hpush.
  assert (IsFull (set_size v 0) = false) as Hnf
    by (change (IsFull (set_size v 0)) with (0 =? capacity_ v);
        apply N.eqb_neq; lia).
  rewrite Hnf in Hpush.
  destruct (PushBack (Outside item) (set_size v 0)) as [[[]|e|] v2];
    [|by destruct Hpush as (_ & _ & ? & _)|done].
  destruct Hpush as (_ & _ & He & Hc). by exists v2.
Qed.

(** X16. [Resize(n)] on a well-formed vector keeps the first [min(n, size)]
    elements and follows them, when it grows, by [n - size] copies of
    [Type{}].  For [n] within the capacity it never allocates, never throws
    and leaves the capacity as it was; beyond the capacity the only failure
    is [std::bad_alloc], the vector untouched. *)
Theorem Resize_keeps_and_fills n v :
  Inv v ->
  match Resize n v with
  | (Ok _, v') =>
      elements v' = take (N.to_nat n) (elements v)
                    ++ replicate (N.to_nat n - N.to_nat (size_ v)) default_value /\
      (n <= capacity_ v -> capacity_ v' = capacity_ v /\ allocated v' = allocated v)
  | (Throw e, v') => e = bad_alloc /\ v' = v /\ capacity_ v < n
  | (Fault, _) => False
  end.
Proof.
  intros Hinv. pose proof (Resize_spec n v Hinv) as Hspec.
  pose proof (length_elements v Hinv) as Hlen.
  destruct (Resize n v) as [[[]|e|] v']; [|by destruct Hspec as (? & ? & ? & _)|done].
  destruct Hspec as (_ & _ & Hcap & _ & Halloc & Hel). split.
  - apply list_eq. intros i. rewrite Hel.
    destruct (decide (i < N.to_nat n `min` N.to_nat (size_ v))%nat) as [Hi|Hi].
    + rewrite lookup_app_l by (rewrite length_take; lia).
      rewrite lookup_take_lt by lia. by rewrite !decide_True by lia.
    + rewrite lookup_app_r by (rewrite length_take; lia). rewrite length_take.
      repeat case_decide; try lia.
      * symmetry. apply lookup_replicate_2. lia.
      * symmetry. apply lookup_ge_None_2. rewrite length_replicate. lia.
  - intros Hfit. split; [|by apply Halloc].
    rewrite Hcap. by destruct (N.ltb_spec (capacity_ v) n); [lia|].
Qed.


(** X18. Appending the items of a list to a well-formed vector, one
    [PushBack] after the other: if all calls return, the elements are the old
    ones followed by the items, the capacity has not shrunk, and a capacity
    that was at most twice the size (as it is for an empty vector) still is.
    If a call throws, it is [std::bad_alloc], and the vector is well formed
    and holds the old elements followed by the items appended before. *)
Theorem PushBack_each_appends (items : list T) v :
  Inv v ->
  match PushBack_each items v with
  | (Ok _, v') =>
      Inv v' /\ elements v' = elements v ++ items /\
      capacity_ v <= capacity_ v' /\
      (capacity_ v <= 2 * size_ v -> capacity_ v' <= 2 * size_ v')
  | (Throw e, v') =>
      e = bad_alloc /\ Inv v' /\
      exists k : nat, (k < length items)%nat /\
        elements v' = elements v ++ take k items
  | (Fault, _) => False
  end.
Proof.
  revert v. induction items as [|item rest IH]; intros v Hinv; simpl.
  - rewrite app_nil_r. split; [done|]. split; [done|]. split; [lia|done].
  - rewrite bind_run. pose proof (PushBack_spec item v Hinv) as Hpush.
    destruct (PushBack (Outside item) v) as [[[]|e|] v1]; [| |done].
    + destruct Hpush as (Hinv1 & Hs1 & He1 & Hc1). specialize (IH v1 Hinv1).
      assert (capacity_ v <= capacity_ v1) as Hmono
        by (rewrite Hc1; destruct (IsFull v); lia).
      assert (capacity_ v <= 2 * size_ v -> capacity_ v1 <= 2 * size_ v1) as Hbound.
      { rewrite Hc1, Hs1. unfold IsFull.
        destruct (N.eqb_spec (size_ v) (capacity_ v)); lia. }
      destruct (PushBack_each rest v1) as [[[]|e|] v']; [| |done].
      * destruct IH as (Hinv' & He' & Hc' & Hb').
        split; [done|]. split; [by rewrite He', He1, <- app_assoc|].
        split; [lia|]. intros Hb. by apply Hb', Hbound.
      * destruct IH as (-> & Hinv' & k & Hk & He').
        split; [done|]. split; [done|]. exists (S k). split; [simpl; lia|].
        by rewrite He', He1, <- app_assoc.
    + destruct Hpush as (-> & -> & _). split; [done|]. split; [done|].
      exists 0%nat. split; [simpl; lia|]. by rewrite app_nil_r.
Qed.

(** X19. Inside the size, [operator[]] and [At] return the same element of
    a well-formed vector and leave it as it is.  At or beyond the size, [At]
    throws [std::out_of_range] where [operator[]] fails its assertion; the
    vector is untouched in both. *)
Theorem subscript_and_At index v :
  (Inv v -> index < size_ v ->
   exists x, subscript index v = (Ok x, v) /\ At index v = (Ok x, v) /\
     elements v !! N.to_nat index = Some x) /\
  (size_ v <= index ->
   subscript index v = (Fault, v) /\ At index v = (Throw out_of_range, v)).
Proof.
  split.
  - intros Hinv Hlt. destruct (At_returns index v Hinv Hlt) as (x & Hat & Hx).
    exists x. split; [|done]. revert Hat. unfold At, subscript.
    rewrite !bind_run. simpl. rewrite bind_run. unfold lift at 1, assert.
    destruct (N.leb_spec (size_ v) index); [lia|].
    by destruct (N.ltb_spec index (size_ v)); [|lia].
  - intros Hge. split; [|by apply At_throws].
    unfold subscript. rewrite bind_run. simpl. rewrite bind_run.
    unfold lift, assert. by destruct (N.ltb_spec index (size_ v)); [lia|].
Qed.

Lemma copy_assign_from_empty (this other : nat) (st : Store T) :
  other <> this -> IsEmpty (st other) = true ->
  copy_assign this other st = (Ok tt, update this SimpleVector_default st).
Proof.
  intros Hne Hempty. unfold copy_assign. rewrite bool_decide_true by done.
  rewrite bind_run. simpl. rewrite Hempty. unfold call. steps. done.
Qed.

(** X20. Copy assignment from a well-formed source.  Assigning an object to
    itself changes nothing.  Otherwise the target gets the elements of the
    source with [capacity = size of the source], whatever capacity it had (so
    its capacity can shrink), and from an empty source it ends up owning no
    memory; no other object changes, the source included.  The only failure
    is [std::bad_alloc], which leaves every object as it was. *)
Theorem copy_assignment (this other : nat) (st : Store T) :
  Inv (st other) ->
  match copy_assign this other st with
  | (Ok _, st') =>
      (forall a, a <> this -> st' a = st a) /\
      (other = this -> st' this = st this) /\
      (other <> this ->
       elements (st' this) = elements (st other) /\
       size_ (st' this) = size_ (st other) /\
       capacity_ (st' this) = size_ (st other) /\
       (IsEmpty (st other) = true -> st' this = SimpleVector_default))
  | (Throw e, st') =>
      e = bad_alloc /\ st' = st /\ other <> this /\ IsEmpty (st other) = false
  | (Fault, _) => False
  end.
Proof.
  intros Hinv. pose proof (copy_assign_spec this other st Hinv) as Hspec.
  destruct (copy_assign this other st) as [[[]|e|] st'] eqn:Hrun; [| |done].
  - destruct Hspec as [Hframe Hthis]. split; [done|]. split.
    + intros Heq. by rewrite decide_True in Hthis.
    + intros Hne. rewrite decide_False in Hthis by done.
      destruct Hthis as (He & Hs & Hc & _). do 3 (split; [done|]).
      intros Hempty. rewrite copy_assign_from_empty in Hrun by done.
      injection Hrun as <-. apply update_eq.
  - destruct Hspec as (-> & -> & Hne & Hcan). do 3 (split; [done|]).
    unfold IsEmpty. apply N.eqb_neq. intros Hzero.
    rewrite copy_assign_from_empty in Hrun; [done..|].
    unfold IsEmpty. by apply N.eqb_eq.
Qed.

(** X21. [swap] exchanges the two vectors (block, size and capacity) and
    touches no other object; swapping an object with itself changes nothing;
    swapping twice gives back every object as it was.  It never throws. *)
Theorem swap_exchanges (this other : nat) (st : Store T) :
  exists st', swap_at this other st = (Ok tt, st') /\
    st' this = st other /\ st' other = st this /\
    (forall a, a <> this -> a <> other -> st' a = st a) /\
    exists st'', swap_at this other st' = (Ok tt, st'') /\ forall a, st'' a = st a.
Proof.
  eexists. split; [apply swap_at_spec|]. split; [|split; [apply update_eq|split]].
  - unfold update. by repeat case_decide; subst.
  - intros a Ha Ha'. by rewrite !update_ne.
  - eexists. split; [apply swap_at_spec|]. intros a.
    unfold update. by repeat case_decide; subst.
Qed.

Lemma lexicographic_first_difference (i : nat) (l1 l2 : list T) x y :
  l1 !! i = Some x -> l2 !! i = Some y ->
  (forall (j : nat) a b, (j < i)%nat -> l1 !! j = Some a -> l2 !! j = Some b ->
     compare_three_way a b = equal) ->
  compare_three_way x y <> equal ->
  lexicographic l1 l2 = compare_three_way x y.
Proof.
  revert l1 l2. induction i as [|i IH]; intros [|a l1] [|b l2] Hx Hy Hsame Hdiff;
    simplify_eq/=.
  - by destruct (compare_three_way x y).
  - rewrite (Hsame 0%nat a b) by (done || lia).
    apply IH; [done..| |done].
    intros j a' b' Hj Ha' Hb'. apply (Hsame (S j)); [lia|done..].
Qed.

(** X22. For an element type whose [y <=> x] is [x <=> y] turned around,
    the same holds for well-formed vectors: [B <=> A] is [A <=> B] turned
    around, so [A < B] is [B > A], [A <= B] is [B >= A], and [==] does not
    depend on the order of its operands. *)
Theorem comparison_turns_around A B :
  Inv A -> Inv B ->
  (forall x y, compare_three_way y x = turned (compare_three_way x y)) ->
  exists c, spaceship A B = Ok c /\ spaceship B A = Ok (turned c) /\
    op_lt A B = op_gt B A /\ op_gt A B = op_lt B A /\
    op_le A B = op_ge B A /\ op_ge A B = op_le B A /\
    op_eq A B = op_eq B A /\ op_ne A B = op_ne B A.
Proof.
  intros HA HB Hturn. unfold op_lt, op_gt, op_le, op_ge, op_eq, op_ne.
  rewrite (spaceship_spec A B HA HB), (spaceship_spec B A HB HA).
  rewrite (lexicographic_turned (elements A) (elements B) Hturn).
  eexists. do 2 (split; [done|]).
  by destruct (lexicographic (elements A) (elements B)).
Qed.

(** X23. On well-formed vectors the six operators agree with one another:
    [!=] is the negation of [==], [<=] is [<] or [==], [>=] is [>] or [==].
    Where elements compare [equal] to themselves, a vector is [==], [<=] and
    [>=] to itself, and neither [<] nor [>]. *)
Theorem relational_operators_agree A B :
  Inv A -> Inv B ->
  exists lt eq gt,
    op_lt A B = Ok lt /\ op_eq A B = Ok eq /\ op_gt A B = Ok gt /\
    op_ne A B = Ok (negb eq) /\
    op_le A B = Ok (lt || eq) /\ op_ge A B = Ok (gt || eq) /\
    ((forall x, compare_three_way x x = equal) ->
     op_eq A A = Ok true /\ op_le A A = Ok true /\ op_ge A A = Ok true /\
     op_lt A A = Ok false /\ op_gt A A = Ok false /\ op_ne A A = Ok false).
Proof.
  intros HA HB. unfold op_lt, op_gt, op_le, op_ge, op_eq, op_ne.
  rewrite (spaceship_spec A B HA HB), (spaceship_spec A A HA HA). simpl.
  eexists _, _, _. do 3 (split; [done|]). split; [|split; [|split]].
  - by destruct (lexicographic (elements A) (elements B)).
  - by destruct (lexicographic (elements A) (elements B)).
  - by destruct (lexicographic (elements A) (elements B)).
  - intros Hrefl. by rewrite lexicographic_refl.
Qed.

(** X24. The comparison of two well-formed vectors is decided at the first
    index where the elements do not compare [equal]: if all elements before
    index [i] compare [equal] and those at [i] do not, [A <=> B] is the
    outcome of comparing the elements at [i], whatever the sizes and the
    elements after. *)
Theorem first_difference_decides (i : nat) x y A B :
  Inv A -> Inv B ->
  elements A !! i = Some x -> elements B !! i = Some y ->
  (forall (j : nat) a b, (j < i)%nat ->
     elements A !! j = Some a -> elements B !! j = Some b ->
     compare_three_way a b = equal) ->
  compare_three_way x y <> equal ->
  spaceship A B = Ok (compare_three_way x y).
Proof.
  intros HA HB Hx Hy Hsame Hdiff. rewrite (spaceship_spec A B HA HB).
  f_equal. by apply (lexicographic_first_difference i).
Qed.

(** X25. On a well-formed vector [NewCapacity] does not wrap around: it is
    [max(2 * capacity, new_size)], at least [new_size], and for
    [new_size >= 1] (as in [IncCapacity]) more than the capacity, so that a
    vector that grows always gets room.  Without the bound of well-formedness
    it can wrap: for a capacity that is a multiple of [2^63] the doubled
    capacity is 0. *)
Theorem NewCapacity_makes_room new_size v :
  (Inv v ->
   NewCapacity v new_size = N.max (capacity_ v * 2) new_size /\
   new_size <= NewCapacity v new_size /\
   (1 <= new_size -> capacity_ v < NewCapacity v new_size)) /\
  (forall k, capacity_ v = k * 2 ^ 63 -> NewCapacity v new_size = new_size).
Proof.
  split.
  - intros Hinv. rewrite NewCapacity_spec by done.
    pose proof (Inv_bounds v Hinv) as (_ & _ & _). lia.
  - intros k Hk. unfold NewCapacity, size_t_mul, size_t_wrap. rewrite Hk.
    replace (k * 2 ^ 63 * 2) with (k * 2 ^ 64) by lia.
    rewrite N.Div0.mod_mul. lia.
Qed.
End MoreFacts.

(** * More of the code's behaviour, on concrete vectors *)

Lemma reserve_then_append_witness :
  Inv full_123 /\ size_ full_123 + N.of_nat (length [7; 8]) <= 5 /\
  match Reserve 5 full_123 with
  | (Ok _, v1) =>
      exists v', PushBack_each [7; 8] v1 = (Ok tt, v') /\
        elements v' = elements full_123 ++ [7; 8] /\ capacity_ v' = capacity_ v1
  | (Throw e, v1) => e = bad_alloc /\ v1 = full_123
  | (Fault, _) => False
  end.
Proof.
  assert (size_ full_123 + N.of_nat (length [7; 8]) <= 5) as Hroom by (simpl; lia).
  split; [exact full_123_Inv|]. split; [exact Hroom|].
  exact (reserve_then_append 5 [7; 8] full_123 full_123_Inv Hroom).
Defined.

Lemma copy_constructor_witness :
  Inv roomy_123 /\
  match SimpleVector_copy roomy_123 with
  | Ok v =>
      elements v = elements roomy_123 /\ size_ v = size_ roomy_123 /\
      capacity_ v = size_ roomy_123 /\ (size_ roomy_123 = 0 -> items_ v = nullptr) /\
      Inv v /\
      ((forall x, compare_three_way x x = equal) -> op_eq v roomy_123 = Ok true)
  | Throw e =>
      e = bad_alloc /\ 0 < size_ roomy_123 /\ can_allocate (size_ roomy_123) = false
  | Fault => False
  end.
Proof.
  split; [exact roomy_123_Inv|]. exact (copy_constructor roomy_123 roomy_123_Inv).
Defined.

Lemma PushBack_appends_witness :
  Inv roomy_123 /\ stays_valid (Inside 0) roomy_123 /\
  (forall x, PushBack_rvalue (Outside x) roomy_123 = PushBack (Outside x) roomy_123) /\
  match PushBack (Inside 0) roomy_123 with
  | (Ok _, v') =>
      exists x, referent (Inside 0) roomy_123 = Some x /\
        elements v' = elements roomy_123 ++ [x] /\ size_ v' = size_ roomy_123 + 1 /\
        At (size_ roomy_123) v' = (Ok x, v') /\
        (IsFull roomy_123 = false -> capacity_ v' = capacity_ roomy_123)
  | (Throw e, v') => e = bad_alloc /\ v' = roomy_123 /\ IsFull roomy_123 = true
  | (Fault, _) => False
  end.
Proof.
  assert (stays_valid (Inside 0) roomy_123) as Hvalid by (split; [done|simpl; lia]).
  split; [exact roomy_123_Inv|]. split; [exact Hvalid|].
  exact (PushBack_appends (Inside 0) roomy_123 roomy_123_Inv Hvalid).
Defined.

Lemma PushBack_then_PopBack_witness :
  Inv full_123 /\ stays_valid (Outside 4) full_123 /\
  match PushBack (Outside 4) full_123 with
  | (Ok _, v1) =>
      exists v2, PopBack v1 = (Ok tt, v2) /\
        size_ v2 = size_ full_123 /\ elements v2 = elements full_123 /\
        capacity_ full_123 <= capacity_ v2
  | (Throw e, v1) => e = bad_alloc /\ v1 = full_123
  | (Fault, _) => False
  end.
Proof.
  split; [exact full_123_Inv|]. split; [exact I|].
  exact (PushBack_then_PopBack (Outside 4) full_123 full_123_Inv I).
Defined.

Lemma Insert_places_witness :
  Inv roomy_123 /\ stays_valid (Inside 2) roomy_123 /\
  match Insert 0 (Inside 2) roomy_123 with
  | (Ok it, v') =>
      (0 <= N.to_nat (size_ roomy_123))%nat /\ it = 0%nat /\
      size_ v' = size_ roomy_123 + 1 /\
      exists x, read_after_shift (Inside 2) 0 roomy_123 = Some x /\
        elements v' = take 0 (elements roomy_123) ++ x :: drop 0 (elements roomy_123) /\
        At (N.of_nat it) v' = (Ok x, v')
  | (Throw e, v') => e = bad_alloc /\ v' = roomy_123 /\ IsFull roomy_123 = true
  | (Fault, _) => (N.to_nat (size_ roomy_123) < 0)%nat
  end.
Proof.
  assert (stays_valid (Inside 2) roomy_123) as Hvalid by (split; [done|simpl; lia]).
  split; [exact roomy_123_Inv|]. split; [exact Hvalid|].
  exact (Insert_places 0 (Inside 2) roomy_123 roomy_123_Inv Hvalid).
Defined.

Lemma Insert_overloads_agree_witness :
  Inv full_123 /\ Insert_rvalue 1 (Outside 9) full_123 = Insert 1 (Outside 9) full_123.
Proof.
  split; [exact full_123_Inv|].
  exact (Insert_overloads_agree 1 9 full_123 full_123_Inv).
Defined.

Lemma Insert_at_end_is_PushBack_witness :
  Inv full_123 /\
  Insert (end' full_123) (Outside 4) full_123 =
  match PushBack (Outside 4) full_123 with
  | (Ok _, v') => (Ok (end' full_123), v')
  | (Throw e, v') => (Throw e, v')
  | (Fault, v') => (Fault, v')
  end.
Proof.
  split; [exact full_123_Inv|].
  exact (Insert_at_end_is_PushBack 4 full_123 full_123_Inv).
Defined.

Lemma Erase_removes_witness :
  Inv full_123 /\
  match Erase 1 full_123 with
  | (Ok it, v') =>
      (1 < N.to_nat (size_ full_123))%nat /\ it = 1%nat /\
      size_ v' = size_ full_123 - 1 /\
      elements v' = take 1 (elements full_123) ++ drop 2 (elements full_123) /\
      elements v' !! it = elements full_123 !! 2%nat
  | (Throw _, _) => False
  | (Fault, v') => (N.to_nat (size_ full_123) <= 1)%nat /\ v' = full_123
  end.
Proof.
  split; [exact full_123_Inv|]. exact (Erase_removes 1 full_123 full_123_Inv).
Defined.

Lemma PopBack_is_Erase_of_last_witness :
  exists v', PopBack full_123 = (Ok tt, v') /\
    Erase (end' full_123 - 1) full_123 = (Ok (end' full_123 - 1)%nat, v') /\
    elements v' = removelast (elements full_123).
Proof.
  exact (proj2 (PopBack_is_Erase_of_last full_123) full_123_Inv eq_refl).
Defined.

Lemma Resize_keeps_and_fills_witness :
  Inv full_123 /\
  match Resize 5 full_123 with
  | (Ok _, v') =>
      elements v' = take (N.to_nat 5) (elements full_123)
                    ++ replicate (N.to_nat 5 - N.to_nat (size_ full_123)) default_value /\
      (5 <= capacity_ full_123 ->
       capacity_ v' = capacity_ full_123 /\ allocated v' = allocated full_123)
  | (Throw e, v') => e = bad_alloc /\ v' = full_123 /\ capacity_ full_123 < 5
  | (Fault, _) => False
  end.
Proof.
  split; [exact full_123_Inv|]. exact (Resize_keeps_and_fills 5 full_123 full_123_Inv).
Defined.


Lemma PushBack_each_appends_witness :
  Inv roomy_123 /\
  match PushBack_each [7; 8] roomy_123 with
  | (Ok _, v') =>
      Inv v' /\ elements v' = elements roomy_123 ++ [7; 8] /\
      capacity_ roomy_123 <= capacity_ v' /\
      (capacity_ roomy_123 <= 2 * size_ roomy_123 -> capacity_ v' <= 2 * size_ v')
  | (Throw e, v') =>
      e = bad_alloc /\ Inv v' /\
      exists k : nat, (k < length [7; 8])%nat /\
        elements v' = elements roomy_123 ++ take k [7; 8]
  | (Fault, _) => False
  end.
Proof.
  split; [exact roomy_123_Inv|].
  exact (PushBack_each_appends [7; 8] roomy_123 roomy_123_Inv).
Defined.

Lemma subscript_and_At_witness :
  (exists x, subscript 1 full_123 = (Ok x, full_123) /\
     At 1 full_123 = (Ok x, full_123) /\
     elements full_123 !! N.to_nat 1 = Some x) /\
  subscript 3 full_123 = (Fault, full_123) /\
  At 3 full_123 = (Throw out_of_range, full_123).
Proof.
  assert (1 < size_ full_123) as Hin by (simpl; lia).
  assert (size_ full_123 <= 3) as Hout by (simpl; lia).
  split.
  - exact (proj1 (subscript_and_At 1 full_123) full_123_Inv Hin).
  - exact (proj2 (subscript_and_At 3 full_123) Hout).
Defined.

Lemma copy_assignment_witness :
  Inv (two_vectors 1%nat) /\
  match copy_assign 0 1 two_vectors with
  | (Ok _, st') =>
      (forall a, a <> 0%nat -> st' a = two_vectors a) /\
      (1%nat = 0%nat -> st' 0%nat = two_vectors 0%nat) /\
      (1%nat <> 0%nat ->
       elements (st' 0%nat) = elements (two_vectors 1%nat) /\
       size_ (st' 0%nat) = size_ (two_vectors 1%nat) /\
       capacity_ (st' 0%nat) = size_ (two_vectors 1%nat) /\
       (IsEmpty (two_vectors 1%nat) = true -> st' 0%nat = SimpleVector_default))
  | (Throw e, st') =>
      e = bad_alloc /\ st' = two_vectors /\ 1%nat <> 0%nat /\
      IsEmpty (two_vectors 1%nat) = false
  | (Fault, _) => False
  end.
Proof.
  split; [exact (two_vectors_Inv 1%nat)|].
  exact (copy_assignment 0%nat 1%nat two_vectors (two_vectors_Inv 1%nat)).
Defined.

Lemma comparison_turns_around_witness :
  Inv full_12 /\ Inv full_123 /\
  (forall x y : N, compare_three_way y x = turned (compare_three_way x y)) /\
  exists c, spaceship full_12 full_123 = Ok c /\
    spaceship full_123 full_12 = Ok (turned c) /\
    op_lt full_12 full_123 = op_gt full_123 full_12 /\
    op_gt full_12 full_123 = op_lt full_123 full_12 /\
    op_le full_12 full_123 = op_ge full_123 full_12 /\
    op_ge full_12 full_123 = op_le full_123 full_12 /\
    op_eq full_12 full_123 = op_eq full_123 full_12 /\
    op_ne full_12 full_123 = op_ne full_123 full_12.
Proof.
  split; [exact full_12_Inv|]. split; [exact full_123_Inv|].
  split; [exact N_compare_turned|].
  exact (comparison_turns_around full_12 full_123 full_12_Inv full_123_Inv
           N_compare_turned).
Defined.

Lemma relational_operators_agree_witness :
  Inv full_12 /\ Inv full_123 /\
  exists lt eq gt,
    op_lt full_12 full_123 = Ok lt /\ op_eq full_12 full_123 = Ok eq /\
    op_gt full_12 full_123 = Ok gt /\
    op_ne full_12 full_123 = Ok (negb eq) /\
    op_le full_12 full_123 = Ok (lt || eq) /\
    op_ge full_12 full_123 = Ok (gt || eq) /\
    ((forall x : N, compare_three_way x x = equal) ->
     op_eq full_12 full_12 = Ok true /\ op_le full_12 full_12 = Ok true /\
     op_ge full_12 full_12 = Ok true /\ op_lt full_12 full_12 = Ok false /\
     op_gt full_12 full_12 = Ok false /\ op_ne full_12 full_12 = Ok false).
Proof.
  split; [exact full_12_Inv|]. split; [exact full_123_Inv|].
  exact (relational_operators_agree full_12 full_123 full_12_Inv full_123_Inv).
Defined.

Lemma first_difference_decides_witness :
  spaceship {| items_ := Some [1; 9]; size_ := 2; capacity_ := 2 |} full_123
  = Ok (compare_three_way 9 2).
Proof.
  assert (Inv {| items_ := Some [1; 9]; size_ := 2; capacity_ := 2 |}) as Hinv
    by (apply Inv_intro; simpl; lia).
  apply (first_difference_decides 1 9 2 _ full_123 Hinv full_123_Inv);
    [reflexivity|reflexivity| |discriminate].
  intros [|j] a b Hj; [|lia]. intros [= <-] [= <-]. reflexivity.
Defined.

Lemma NewCapacity_makes_room_witness :
  NewCapacity full_123 1 = N.max (capacity_ full_123 * 2) 1 /\
  1 <= NewCapacity full_123 1 /\
  (1 <= 1 -> capacity_ full_123 < NewCapacity full_123 1).
Proof. exact (proj1 (NewCapacity_makes_room 1 full_123) full_123_Inv). Defined.
